(** * NBA Fantasy Draft Board (app.py): ingestion pipeline and draft state

    A shallow embedding of [src/app.py]: the PDF path ([parse_pdf_cached]),
    the CSV path ([parse_csv]) and the session's drafted set.

    Modelling conventions.
    - A Python [str] is a [string]; one [ascii] per character.  The
      character classes below ([\s], [\d], [\w], [A-Z], case folding) are
      Python's on ASCII text; on other text Python's classes also take the
      Unicode spaces, digits and letters, which the model does not know: a
      property that speaks of white space as such is stated for ASCII text
      ([ascii_text]).  Comparison of strings is lexicographic on character
      codes, as Python's.
    - A Blend value is a binary64 float, [spec_float] at precision 53 and
      maximal exponent 1024; the missing value of pandas is [S754_nan].
    - A Python exception is the [Raise] branch of [result]. *)

From Stdlib Require Import ZArith List String Ascii Bool Lia SpecFloat.
From Stdlib Require Import DecimalString.
From stdpp Require Import base option list sorting strings gmap.

Local Open Scope string_scope.
Local Open Scope Z_scope.
Local Open Scope nat_scope.

(** ** Exceptions *)

Inductive exn := IndexError | KeyError | ValueError | TypeError | BackendError.

Inductive result (A : Type) :=
| Ok (a : A)
| Raise (e : exn).
Arguments Ok {A} a.
Arguments Raise {A} e.

#[global] Instance result_ret : MRet result := fun _ a => Ok a.

#[global] Instance result_bind : MBind result := fun _ _ f m =>
  match m with
  | Ok a => f a
  | Raise e => Raise e
  end.

#[global] Instance result_fmap : FMap result := fun _ _ f m =>
  match m with
  | Ok a => Ok (f a)
  | Raise e => Raise e
  end.

(** [for x in l: acc = f(acc, x)], where a step may raise. *)
Fixpoint for_each {A S} (f : S → A → result S) (l : list A) (s : S) : result S :=
  match l with
  | [] => Ok s
  | x :: l' => s' ← f s x; for_each f l' s'
  end.

(** ** Python strings *)

Module Str.

Definition code (c : ascii) : nat := nat_of_ascii c.

(** [str.isspace] on ASCII: TAB..CR, FS..US and the space.  Python's
    white space has more: U+0085, U+00A0 and the other Unicode spaces; a
    text holding one of these is outside the model. *)
Definition isspace (c : ascii) : bool :=
  let n := code c in
  ((9 <=? n) && (n <=? 13)) || ((28 <=? n) && (n <=? 32)).

Definition isdigit (c : ascii) : bool :=
  let n := code c in (48 <=? n) && (n <=? 57).

Definition isupper (c : ascii) : bool :=
  let n := code c in (65 <=? n) && (n <=? 90).

Definition islower (c : ascii) : bool :=
  let n := code c in (97 <=? n) && (n <=? 122).

(** [\w]: letters, digits and the underscore. *)
Definition isword (c : ascii) : bool :=
  isupper c || islower c || isdigit c || (code c =? 95).

Definition lower_char (c : ascii) : ascii :=
  if isupper c then ascii_of_nat (code c + 32) else c.

Definition chars (s : string) : list ascii := list_ascii_of_string s.
Definition of_chars (l : list ascii) : string := string_of_list_ascii l.

(** [s.lower()] *)
Definition lower (s : string) : string := of_chars (map lower_char (chars s)).

Fixpoint lstrip_chars (l : list ascii) : list ascii :=
  match l with
  | c :: l' => if isspace c then lstrip_chars l' else l
  | [] => []
  end.

Definition strip_chars (l : list ascii) : list ascii :=
  rev (lstrip_chars (rev (lstrip_chars l))).

(** [s.strip()] *)
Definition strip (s : string) : string := of_chars (strip_chars (chars s)).

(** [s.split()]: the maximal runs of non-whitespace characters.  [cur] is
    the run being read, reversed. *)
Fixpoint split_chars (cur : list ascii) (l : list ascii) : list (list ascii) :=
  match l with
  | [] => match cur with [] => [] | _ => [rev cur] end
  | c :: l' =>
      if isspace c
      then match cur with
           | [] => split_chars [] l'
           | _ => rev cur :: split_chars [] l'
           end
      else split_chars (c :: cur) l'
  end.

Definition split (s : string) : list string :=
  map of_chars (split_chars [] (chars s)).

(** [sep.join(parts)] *)
Definition join (sep : string) (parts : list string) : string :=
  String.concat sep parts.

(** The line boundaries of [str.splitlines] on ASCII text: LF, VT, FF, CR,
    FS, GS, RS; CR LF counts once. *)
Definition islinebreak (c : ascii) : bool :=
  let n := code c in
  ((10 <=? n) && (n <=? 13)) || ((28 <=? n) && (n <=? 30)).

Fixpoint splitlines_chars (cur : list ascii) (l : list ascii) : list (list ascii) :=
  match l with
  | [] => match cur with [] => [] | _ => [rev cur] end
  | c :: l' =>
      if islinebreak c
      then rev cur ::
           match l' with
           | d :: l'' =>
               if (code c =? 13) && (code d =? 10)
               then splitlines_chars [] l''
               else splitlines_chars [] l'
           | [] => []
           end
      else splitlines_chars (c :: cur) l'
  end.

Definition splitlines (s : string) : list string :=
  map of_chars (splitlines_chars [] (chars s)).

(** [str(j)] for a non-negative integer. *)
Definition of_nat (j : nat) : string := NilEmpty.string_of_uint (Nat.to_uint j).

(** Python truthiness of a string. *)
Definition truthy (s : string) : bool :=
  match s with EmptyString => false | _ => true end.

End Str.

(** ** Regular expressions ([re])

    A backtracking matcher with Python's priorities: the alternatives of
    [|] are tried left to right, repetition is greedy, [search] returns the
    leftmost match.  Every repetition the program writes is over one
    character class, which is what [Star] takes. *)

Module Re.

Inductive regex :=
| Empty                          (* the empty pattern *)
| Char (c : ascii)               (* a literal character *)
| Class (p : ascii → bool)       (* a character class *)
| Seq (r1 r2 : regex)            (* r1 r2 *)
| Alt (r1 r2 : regex)            (* r1|r2 *)
| Star (p : ascii → bool)        (* [p]* *)
| Group (n : nat) (r : regex)    (* the capturing group number n *)
| Bol                            (* ^ *)
| Eol                            (* $ *)
| WordB.                         (* \b *)

(** [p]+ , r? and a literal word. *)
Definition Plus (p : ascii → bool) : regex := Seq (Class p) (Star p).
Definition Opt (r : regex) : regex := Alt r Empty.

Fixpoint lit_chars (l : list ascii) : regex :=
  match l with
  | [] => Empty
  | [c] => Char c
  | c :: l' => Seq (Char c) (lit_chars l')
  end.
Definition Lit (s : string) : regex := lit_chars (Str.chars s).

(** The matcher's position: the characters already read (last one first),
    the characters ahead, and the text of the groups closed so far. *)
Record state := {
  before : list ascii;
  after : list ascii;
  groups : list (nat * string)
}.

Definition char_eq (ignorecase : bool) (c x : ascii) : bool :=
  if ignorecase
  then Nat.eqb (Str.code (Str.lower_char c)) (Str.code (Str.lower_char x))
  else Nat.eqb (Str.code c) (Str.code x).

Definition word_at (l : list ascii) : bool :=
  match l with
  | c :: _ => Str.isword c
  | [] => false
  end.

(** Greedy [p]*: read while [p] holds, give back one character at a time
    when the continuation [k] fails. *)
Fixpoint star (p : ascii → bool) (k : state → option state)
    (bef aft : list ascii) (g : list (nat * string)) : option state :=
  match aft with
  | c :: aft' =>
      if p c
      then match star p k (c :: bef) aft' g with
           | Some st => Some st
           | None => k {| before := bef; after := aft; groups := g |}
           end
      else k {| before := bef; after := aft; groups := g |}
  | [] => k {| before := bef; after := aft; groups := g |}
  end.

Fixpoint run (ignorecase : bool) (r : regex) (k : state → option state)
    (st : state) : option state :=
  match r with
  | Empty => k st
  | Char c =>
      match after st with
      | x :: aft' =>
          if char_eq ignorecase c x
          then k {| before := x :: before st; after := aft'; groups := groups st |}
          else None
      | [] => None
      end
  | Class p =>
      match after st with
      | x :: aft' =>
          if p x
          then k {| before := x :: before st; after := aft'; groups := groups st |}
          else None
      | [] => None
      end
  | Seq r1 r2 => run ignorecase r1 (run ignorecase r2 k) st
  | Alt r1 r2 =>
      match run ignorecase r1 k st with
      | Some st' => Some st'
      | None => run ignorecase r2 k st
      end
  | Star p => star p k (before st) (after st) (groups st)
  | Group n r' =>
      run ignorecase r'
        (fun st' =>
           let len := length (before st') - length (before st) in
           k {| before := before st'; after := after st';
                groups := (n, Str.of_chars (take len (after st))) :: groups st' |})
        st
  | Bol => match before st with [] => k st | _ => None end
  | Eol =>
      match after st with
      | [] => k st
      | [c] => if Nat.eqb (Str.code c) 10 then k st else None
      | _ => None
      end
  | WordB =>
      if xorb (word_at (before st)) (word_at (after st)) then k st else None
  end.

(** A match object: [m.start()], [m.end()] and the groups. *)
Record Match := {
  m_start : nat;
  m_end : nat;
  m_groups : list (nat * string)
}.

Fixpoint assoc (n : nat) (g : list (nat * string)) : option string :=
  match g with
  | [] => None
  | (i, s) :: g' => if Nat.eqb i n then Some s else assoc n g'
  end.

(** [m.group(n)]; [None] when the group took no part in the match. *)
Definition group (m : Match) (n : nat) : option string := assoc n (m_groups m).

Definition found (bef : list ascii) (st : state) : Match :=
  {| m_start := length bef; m_end := length (before st); m_groups := groups st |}.

Definition start_state (bef aft : list ascii) : state :=
  {| before := bef; after := aft; groups := [] |}.

Fixpoint search_from (ignorecase : bool) (r : regex) (bef aft : list ascii)
    : option Match :=
  match run ignorecase r Some (start_state bef aft) with
  | Some st => Some (found bef st)
  | None =>
      match aft with
      | [] => None
      | c :: aft' => search_from ignorecase r (c :: bef) aft'
      end
  end.

(** [re.search(r, s)] *)
Definition search (ignorecase : bool) (r : regex) (s : string) : option Match :=
  search_from ignorecase r [] (Str.chars s).

(** [re.match(r, s)] *)
Definition match_ (ignorecase : bool) (r : regex) (s : string) : option Match :=
  found [] <$> run ignorecase r Some (start_state [] (Str.chars s)).

(** [re.fullmatch(r, s)] *)
Definition fullmatch (ignorecase : bool) (r : regex) (s : string) : option Match :=
  found [] <$>
    run ignorecase r
      (fun st => match after st with [] => Some st | _ => None end)
      (start_state [] (Str.chars s)).

(** [re.sub(r, repl, s)]: the leftmost matches, left to right, each replaced
    by [repl].  [fuel] bounds the number of positions visited; [sub] gives
    one more than the length of [s]. *)
Fixpoint sub_from (fuel : nat) (ignorecase : bool) (r : regex)
    (repl : list ascii) (bef aft : list ascii) : list ascii :=
  match fuel with
  | 0 => aft
  | S fuel' =>
      let step :=
        match aft with
        | [] => []
        | c :: aft' => c :: sub_from fuel' ignorecase r repl (c :: bef) aft'
        end in
      match run ignorecase r Some (start_state bef aft) with
      | Some st =>
          if Nat.eqb (length (before st)) (length bef)
          then repl ++ step
          else repl ++ sub_from fuel' ignorecase r repl (before st) (after st)
      | None => step
      end
  end.

Definition sub (ignorecase : bool) (r : regex) (repl : string) (s : string)
    : string :=
  Str.of_chars
    (sub_from (S (String.length s)) ignorecase r (Str.chars repl) []
       (Str.chars s)).

End Re.

(** ** Floats

    [float(s)] on the numerals the program passes to it, decimal digits
    with an optional fraction: the binary64 nearest to the decimal (ties to
    even), infinite above the range.  On a text of another form this
    [float] raises; the program never passes one ([float_decimal] below). *)

Definition prec : Z := 53.
Definition emax : Z := 1024.

Definition digit_value (c : ascii) : Z := Z.of_nat (Str.code c - 48).

Definition digits_value (l : list ascii) : Z :=
  foldl (fun acc c => (10 * acc + digit_value c)%Z) 0%Z l.

Definition all_digits (l : list ascii) : bool :=
  match l with
  | [] => false
  | _ => forallb Str.isdigit l
  end.

(** [n / 10^k], rounded once. *)
Definition decimal_to_float (n : Z) (k : nat) : spec_float :=
  match n, (10 ^ Z.of_nat k)%Z with
  | Zpos m, Zpos d => SFdiv prec emax (S754_finite false m 0) (S754_finite false d 0)
  | _, _ => S754_zero false
  end.

Fixpoint split_point (l : list ascii) : list ascii * option (list ascii) :=
  match l with
  | [] => ([], None)
  | c :: l' =>
      if Nat.eqb (Str.code c) 46
      then ([], Some l')
      else let '(i, f) := split_point l' in (c :: i, f)
  end.

Definition float (s : string) : result spec_float :=
  match split_point (Str.chars s) with
  | (i, None) =>
      if all_digits i then Ok (decimal_to_float (digits_value i) 0)
      else Raise ValueError
  | (i, Some f) =>
      if all_digits i && all_digits f
      then Ok (decimal_to_float (digits_value (i ++ f)) (length f))
      else Raise ValueError
  end.

Definition isnan (x : spec_float) : bool :=
  match x with S754_nan => true | _ => false end.

(** The float [m * 2^e], for writing down values: [dyadic 4 0] is 4.0,
    [dyadic 5 (-1)] is 2.5. *)
Definition dyadic (m e : Z) : spec_float := binary_normalize prec emax m e false.

(** ** The PDF document, as pdfplumber hands it over *)

Definition cell := option string.
Definition table := list (list cell).

Record page := {
  extract_tables : option (list table);   (* page.extract_tables() *)
  extract_text : option string            (* page.extract_text() *)
}.

(** The [pdfplumber] module: [open] reads the pages or raises. *)
Record pdfplumber_module := {
  pdf_open : list Byte.byte → result (list page)
}.

(** A tuple appended to [rows]: [(player, team, pos, blend)]. *)
Record RawRecord := {
  raw_player : string;
  raw_team : string;
  raw_pos : string;
  raw_blend : option spec_float
}.

(** ** The patterns of [parse_pdf_cached] *)

Module Pat.
Import Re.

(** [\s+] *)
Definition spaces : regex := Plus Str.isspace.

(** [\bBL(END)?\b] *)
Definition bl_word : regex :=
  Seq WordB (Seq (Lit "BL") (Seq (Opt (Group 1 (Lit "END"))) WordB)).

(** [bl(end)?] *)
Definition bl_header : regex := Seq (Lit "bl") (Opt (Group 1 (Lit "end"))).

(** [\d+(?:\.\d+)?] *)
Definition decimal : regex :=
  Seq (Plus Str.isdigit) (Opt (Seq (Char ".") (Plus Str.isdigit))).

(** [(\d+(?:\.\d+)?)] *)
Definition number : regex := Group 1 decimal.

(** [(https?://\S+)|(ADP Data|Hashtag Basketball|Season|Updated|\bBL(END)?\b)] *)
Definition chrome : regex :=
  Alt (Group 1
         (Seq (Lit "http") (Seq (Opt (Char "s")) (Seq (Lit "://")
            (Plus (fun c => negb (Str.isspace c)))))))
      (Group 2
         (Alt (Lit "ADP Data") (Alt (Lit "Hashtag Basketball")
            (Alt (Lit "Season") (Alt (Lit "Updated")
               (Seq WordB (Seq (Lit "BL") (Seq (Opt (Group 3 (Lit "END"))) WordB)))))))).

(** [(\d+(?:\.\d+)?)\s*$] *)
Definition trailing_number : regex :=
  Seq (Group 1 decimal) (Seq (Star Str.isspace) Eol).

(** [^\s*\d+[\.\-]?\s*] *)
Definition leading_index : regex :=
  Seq Bol (Seq (Star Str.isspace) (Seq (Plus Str.isdigit)
    (Seq (Opt (Class (fun c => Nat.eqb (Str.code c) 46 || Nat.eqb (Str.code c) 45)))
       (Star Str.isspace)))).

(** [\(([A-Z/]+)\)] *)
Definition paren_pos : regex :=
  Seq (Char "(")
    (Seq (Group 1 (Plus (fun c => Str.isupper c || Nat.eqb (Str.code c) 47)))
       (Char ")")).

(** [[A-Z]{2,4}] *)
Definition team_code : regex :=
  Seq (Class Str.isupper) (Seq (Class Str.isupper)
    (Opt (Seq (Class Str.isupper) (Opt (Class Str.isupper))))).

(** [^https?://] *)
Definition bare_link : regex :=
  Seq Bol (Seq (Lit "http") (Seq (Opt (Char "s")) (Lit "://"))).

End Pat.

(** ** [parse_pdf_cached]: extraction (lines 18-91) *)

(** [_clean(s)]: [re.sub(r"\s+", " ", s or "").strip()], on ASCII text. *)
Definition _clean (s : option string) : string :=
  Str.strip (Re.sub false Pat.spaces " " (default "" s)).

(** Truthiness of a cell: a non-empty string. *)
Definition cell_truthy (c : cell) : bool :=
  match c with
  | Some s => Str.truthy s
  | None => false
  end.

(** [any(r)] *)
Definition any (r : list cell) : bool := existsb cell_truthy r.

Fixpoint find_index {A} (p : A → bool) (l : list A) : option nat :=
  match l with
  | [] => None
  | x :: l' => if p x then Some 0 else S <$> find_index p l'
  end.

(** [r[idx]] *)
Definition getitem {A} (r : list A) (idx : nat) : result A :=
  match r !! idx with
  | Some x => Ok x
  | None => Raise IndexError
  end.

(** The inner function [g] (lines 45-47): [r[idx]], and [None] when the
    access raises. *)
Definition g (r : list cell) (idx : nat) : cell :=
  match getitem r idx with
  | Ok c => c
  | Raise _ => None
  end.

(** [float(m.group(1))] *)
Definition float_group1 (m : Re.Match) : result spec_float :=
  match Re.group m 1 with
  | Some s => float s
  | None => Raise TypeError
  end.

(** Lines 28-31: the first of the three leading rows whose joined cells
    hold the word BL or BLEND. *)
Definition is_header (r : list cell) : bool :=
  let joined := Str.join " " (map _clean (filter (fun c => cell_truthy c) r)) in
  bool_decide (is_Some (Re.search true Pat.bl_word joined)).

Definition find_header (tbl : table) : option nat :=
  find_index is_header (take 3 tbl).

(** Line 33 *)
Definition header_names (r : list cell) : list string :=
  imap (fun j c =>
          let h := _clean c in
          if Str.truthy h then h else "C" ++ Str.of_nat j) r.

(** Line 34: [{h.lower(): j for j, h in enumerate(headers)}]; a later
    header replaces an earlier one of the same name. *)
Definition column_map (headers : list string) : gmap string nat :=
  foldl (fun m jh => <[Str.lower jh.2 := jh.1]> m) ∅ (imap pair headers).

(** Lines 36-39 *)
Definition find_blend (headers : list string) : option nat :=
  find_index
    (fun h => bool_decide
                (is_Some (Re.fullmatch false Pat.bl_header
                            (Str.lower (_clean (Some h))))))
    headers.

(** Lines 44-56: one data row. [None] is [continue]. *)
Definition table_row (player_idx : nat) (team_idx pos_idx blend_idx : option nat)
    (r : list cell) : result (option RawRecord) :=
  if negb (any r) then Ok None else
  let player := _clean (g r player_idx) in
  if negb (Str.truthy player) || (length (Str.split player) <? 2) then Ok None else
  let team := match team_idx with Some i => _clean (g r i) | None => "" end in
  let pos := match pos_idx with Some i => _clean (g r i) | None => "" end in
  let blend_raw := match blend_idx with Some i => _clean (g r i) | None => "" end in
  let m := if Str.truthy blend_raw
           then Re.search false Pat.number blend_raw else None in
  blend ← match m with
          | Some m => Some <$> float_group1 m
          | None => Ok None
          end;
  Ok (Some {| raw_player := player; raw_team := team; raw_pos := pos;
              raw_blend := blend |}).

(** The loop body shared by both extractors: append what was parsed. *)
Definition append_record {A} (parse : A → result (option RawRecord))
    (rows : list RawRecord) (x : A) : result (list RawRecord) :=
  rec ← parse x;
  Ok (match rec with Some t => (rows ++ [t])%list | None => rows end).

(** Lines 26-56: one table. *)
Definition extract_table (rows : list RawRecord) (tbl : table)
    : result (list RawRecord) :=
  match find_header tbl with
  | None => Ok rows
  | Some header_idx =>
      let headers := header_names (default [] (tbl !! header_idx)) in
      let colmap := column_map headers in
      let blend_idx := find_blend headers in
      let player_idx := default 0 (colmap !! "player") in
      let team_idx := colmap !! "team" in
      let pos_idx := colmap !! "pos" in
      for_each (append_record (table_row player_idx team_idx pos_idx blend_idx))
        (drop (S header_idx) tbl) rows
  end.

(** Lines 61-91: one line of the page's text. *)
Definition text_line (raw : string) : result (option RawRecord) :=
  let line := _clean (Some raw) in
  if negb (Str.truthy line) then Ok None else
  if bool_decide (is_Some (Re.search true Pat.chrome line)) then Ok None else
  match Re.search false Pat.trailing_number line with
  | None => Ok None
  | Some m_end =>
      blend ← float_group1 m_end;
      let body := Str.strip (Re.sub false Pat.trailing_number "" line) in
      let body := Re.sub false Pat.leading_index "" body in
      let '(pos, body) :=
        match Re.search false Pat.paren_pos body with
        | Some m_pos =>
            (default "" (Re.group m_pos 1),
             Str.strip (Str.of_chars (take (Re.m_start m_pos) (Str.chars body) ++
                                      drop (Re.m_end m_pos) (Str.chars body))%list))
        | None => ("", body)
        end in
      let parts := Str.split body in
      let '(team, parts) :=
        match last parts with
        | Some p =>
            if bool_decide (is_Some (Re.fullmatch false Pat.team_code p))
            then (p, take (length parts - 1) parts)
            else ("", parts)
        | None => ("", parts)
        end in
      let player := _clean (Some (Str.join " " parts)) in
      if bool_decide (is_Some (Re.match_ true Pat.bare_link player)) then Ok None else
      if 2 <=? length (Str.split player)
      then Ok (Some {| raw_player := player; raw_team := team; raw_pos := pos;
                       raw_blend := Some blend |})
      else Ok None
  end.

(** Lines 23-91: one page; the tables first, then the text lines. *)
Definition extract_page (rows : list RawRecord) (pg : page)
    : result (list RawRecord) :=
  rows ← for_each extract_table (default [] (extract_tables pg)) rows;
  for_each (append_record text_line)
    (Str.splitlines (default "" (extract_text pg))) rows.

(** Lines 21-91: [rows] after the loop over [pdf.pages]. *)
Definition extract_rows (pages : list page) : result (list RawRecord) :=
  for_each extract_page pages [].

(** ** The frame both paths return *)

(** A row of the frame before ranking. *)
Record Row := {
  Player : string;
  Team : string;
  Pos : string;
  Blend : spec_float           (* float64; NaN is the missing value *)
}.

(** A row of the result. [ADP_Rank] has dtype Int64: an integer or <NA>. *)
Record Entry := {
  row :> Row;
  ADP_Rank : option Z
}.

Record DataFrame := {
  columns : list string;
  records : list Entry
}.

Definition schema : list string := ["Player"; "Team"; "Pos"; "Blend"; "ADP_Rank"].

(** [pd.DataFrame(columns=["Player","Team","Pos","Blend","ADP_Rank"])] *)
Definition empty_frame : DataFrame := {| columns := schema; records := [] |}.

(** ** pandas: sort_values, drop_duplicates, head, rank *)

(** The order of [sort_values] on a float column with
    [ascending=True, na_position="last"]: by value, NaN after every
    number, the NaNs tied. *)
Definition blend_compare (a b : spec_float) : comparison :=
  match a, b with
  | S754_nan, S754_nan => Eq
  | S754_nan, _ => Gt
  | _, S754_nan => Lt
  | _, _ => default Eq (SFcompare a b)
  end.

(** The lexicographic order of [sort_values(["Blend","Player"])]. *)
Definition row_compare (x y : Row) : comparison :=
  match blend_compare (Blend x) (Blend y) with
  | Eq => String.compare (Player x) (Player y)
  | c => c
  end.

Definition row_le (x y : Row) : bool :=
  match row_compare x y with
  | Gt => false
  | _ => true
  end.

(** The sort is stable: [x], which comes before every row of [l], stays
    before the rows it ties with. *)
Fixpoint insert_row (x : Row) (l : list Row) : list Row :=
  match l with
  | [] => [x]
  | y :: l' => if row_le x y then x :: l else y :: insert_row x l'
  end.

Fixpoint sort_values (l : list Row) : list Row :=
  match l with
  | [] => []
  | x :: l' => insert_row x (sort_values l')
  end.

(** [drop_duplicates(subset=["Player"], keep="first")]; [seen] holds the
    names of the rows already kept. *)
Fixpoint drop_duplicates_from (seen : gset string) (l : list Row) : list Row :=
  match l with
  | [] => []
  | x :: l' =>
      if decide (Player x ∈ seen)
      then drop_duplicates_from seen l'
      else x :: drop_duplicates_from ({[Player x]} ∪ seen) l'
  end.

Definition drop_duplicates (l : list Row) : list Row :=
  drop_duplicates_from ∅ l.

(** [head(300)] *)
Definition head (n : nat) (l : list Row) : list Row := take n l.

Definition count_if {A} (p : A → bool) (l : list A) : nat :=
  length (filter (fun x => p x = true) l).

(** [rank(method="first")] with the default [na_option="keep"], followed by
    [astype("Int64")]: a NaN has no rank; a number's rank is one more than
    the count of the smaller numbers of the column and of the equal numbers
    above it.  [above] is the part of the column above the current row. *)
Fixpoint rank_from (column above : list spec_float) (l : list spec_float)
    : list (option Z) :=
  match l with
  | [] => []
  | x :: l' =>
      (if isnan x then None
       else Some (Z.of_nat (1 + count_if (fun y => SFltb y x) column
                              + count_if (fun y => SFeqb y x) above)))
      :: rank_from column (above ++ [x]) l'
  end.

Definition rank_first (column : list spec_float) : list (option Z) :=
  rank_from column [] column.

(** [df["ADP_Rank"] = df["Blend"].rank(method="first").astype("Int64")] *)
Definition with_rank (l : list Row) : list Entry :=
  zip_with Build_Entry l (rank_first (map Blend l)).

(** [pd.to_numeric(df["Blend"], errors="coerce")] on the tuples' last
    component: a float stays, [None] becomes NaN. *)
Definition to_numeric_blend (b : option spec_float) : spec_float :=
  default S754_nan b.

Definition row_of_raw (t : RawRecord) : Row :=
  {| Player := raw_player t; Team := raw_team t; Pos := raw_pos t;
     Blend := to_numeric_blend (raw_blend t) |}.

(** ** [parse_pdf_cached]: lines 93-104 *)

Definition consolidate (rows : list RawRecord) : DataFrame :=
  match rows with
  | [] => empty_frame
  | _ =>
      let df := map row_of_raw rows in
      let df := sort_values df in
      let df := drop_duplicates df in
      let df := head 300 df in
      {| columns := schema; records := with_rank df |}
  end.

(** [parse_pdf_cached(pdf_bytes)]; [pdfplumber] is [None] when the import
    at line 14 raises. *)
Definition parse_pdf_cached (pdfplumber : option pdfplumber_module)
    (pdf_bytes : list Byte.byte) : result DataFrame :=
  match pdfplumber with
  | None => Ok empty_frame
  | Some plumber =>
      pages ← pdf_open plumber pdf_bytes;
      rows ← extract_rows pages;
      Ok (consolidate rows)
  end.

(** ** [parse_csv] (lines 106-126)

    [csv_frame] is the frame [pd.read_csv] returned: the column names and
    the rows, every cell as its text, "" for a missing cell.  [to_numeric]
    is pandas' reading of one cell of the score column under
    [errors="coerce"]: the cell's number, NaN when it has none.

    pandas gives each column a dtype and [sort_values] orders a column by
    it.  The order of the model, names as strs and scores as float64, is
    pandas' where the player cells are strs (text that is no number, no
    boolean and no marker of a missing value) and the scores are float64
    values or integers below 2^53 in magnitude.  Elsewhere pandas sorts a
    numeric column of names by number, a missing name last and an int64
    score by its integer; the properties that state the order of two names
    of a CSV state it for [full_name] cells and [exact_score] scores. *)

Record csv_frame := {
  csv_columns : list string;
  csv_rows : list (list string)
}.

(** [{c.lower(): c for c in df.columns}] *)
Definition lower_names (names : list string) : gmap string string :=
  foldl (fun m c => <[Str.lower c := c]> m) ∅ names.

(** The inner function [pick] (lines 109-112). *)
Fixpoint pick (cols : gmap string string) (names : list string) : option string :=
  match names with
  | [] => None
  | n :: names' =>
      match cols !! n with
      | Some c => Some c
      | None => pick cols names'
      end
  end.

(** [df[name]]: the place of the column of that name. *)
Definition column (df : csv_frame) (name : string) : result nat :=
  match find_index (String.eqb name) (csv_columns df) with
  | Some j => Ok j
  | None => Raise KeyError
  end.

(** [df.iloc[:,0]] *)
Definition iloc0 (df : csv_frame) : result nat :=
  match csv_columns df with
  | [] => Raise IndexError
  | _ => Ok 0
  end.

(** [df[c] if c else other]; a column name is truthy when it is a
    non-empty string. *)
Definition column_or {A} (df : csv_frame) (c : option string)
    (read : nat → A) (other : result A) : result A :=
  match c with
  | Some name => if Str.truthy name then read <$> column df name else other
  | None => other
  end.

(** The cell of a row in column [j], as its text. *)
Definition cell_at (r : list string) (j : nat) : string := default "" (r !! j).

Definition parse_csv (to_numeric : string → spec_float) (df : csv_frame)
    : result DataFrame :=
  let cols := lower_names (csv_columns df) in
  let col_player := pick cols ["player"; "name"; "player_name"] in
  let col_blend := pick cols ["blend"; "adp"; "avg_draft_position"; "avgdraftposition"] in
  let col_team := pick cols ["team"; "tm"] in
  let col_pos := pick cols ["pos"; "position"] in
  player ← column_or df col_player id (iloc0 df);
  team ← column_or df col_team Some (Ok None);
  pos ← column_or df col_pos Some (Ok None);
  blend ← column_or df col_blend Some (Ok None);
  let out :=
    map (fun r =>
           {| Player := cell_at r player;
              Team := match team with Some j => cell_at r j | None => "" end;
              Pos := match pos with Some j => cell_at r j | None => "" end;
              Blend := match blend with
                       | Some j => to_numeric (cell_at r j)
                       | None => S754_nan
                       end |})
        (csv_rows df) in
  let out := sort_values out in
  let out := head 300 out in
  Ok {| columns := schema; records := with_rank out |}.

(** ** Session state (lines 128-203) *)

(** [st.session_state["drafted"]]: a set of player names. *)
Abbreviation DraftState := (gset string).

(** Line 130: the state at the start of a session. *)
Definition initial_drafted : DraftState := ∅.

(** Line 151: [df[~df["Player"].isin(drafted)]] *)
Definition remaining_df (df : list Entry) (drafted : DraftState) : list Entry :=
  filter (fun e : Entry => Player e ∉ drafted) df.

(** Line 152: [df[df["Player"].isin(drafted)]] *)
Definition drafted_df (df : list Entry) (drafted : DraftState) : list Entry :=
  filter (fun e : Entry => Player e ∈ drafted) df.

(** Line 177: [drafted.update(to_draft)] *)
Definition update (drafted : DraftState) (to_draft : list string) : DraftState :=
  drafted ∪ list_to_set to_draft.

(** Lines 175-178: the button is disabled while nothing is checked; a
    press adds the checked names to the drafted set. *)
Definition move_to_drafted (drafted : DraftState) (to_draft : list string)
    : DraftState :=
  if bool_decide (length to_draft = 0) then drafted else update drafted to_draft.

(** Line 203: [st.session_state["drafted"] = set()] *)
Definition reset (drafted : DraftState) : DraftState := ∅.

(** The set of names of a list of rows. *)
Definition names (df : list Entry) : gset string :=
  list_to_set (map (fun e : Entry => Player e) df).

(** ** The script (lines 128-204)

    Streamlit runs the script from the top at every interaction; the
    session state is what one run leaves to the next. *)

(** [st.session_state], after lines 129-130. *)
Record session_state := {
  players_df : option DataFrame;      (* st.session_state["players_df"] *)
  drafted_names : DraftState          (* st.session_state["drafted"] *)
}.

(** Lines 129-130: a new session. *)
Definition new_session : session_state :=
  {| players_df := None; drafted_names := initial_drafted |}.

(** Lines 140-143: the uploaders; the frame is parsed only while
    [players_df] is [None], the PDF first. *)
Definition upload (pdfplumber : option pdfplumber_module)
    (to_numeric : string → spec_float)
    (up_pdf : option (list Byte.byte)) (up_csv : option csv_frame)
    (s : session_state) : result session_state :=
  match up_pdf, players_df s with
  | Some pdf_bytes, None =>
      df ← parse_pdf_cached pdfplumber pdf_bytes;
      Ok {| players_df := Some df; drafted_names := drafted_names s |}
  | _, _ =>
      match up_csv, players_df s with
      | Some csv, None =>
          df ← parse_csv to_numeric csv;
          Ok {| players_df := Some df; drafted_names := drafted_names s |}
      | _, _ => Ok s
      end
  end.

(** Line 147: [df is None or len(df) == 0] *)
Definition awaiting_upload (s : session_state) : bool :=
  match players_df s with
  | None => true
  | Some df => length (records df) =? 0
  end.

(** A stable sort by a comparison, as [sort_values] on the frames of the
    board. *)
Fixpoint insert_by {A} (le : A → A → bool) (x : A) (l : list A) : list A :=
  match l with
  | [] => [x]
  | y :: l' => if le x y then x :: l else y :: insert_by le x l'
  end.

Fixpoint sort_by {A} (le : A → A → bool) (l : list A) : list A :=
  match l with
  | [] => []
  | x :: l' => insert_by le x (sort_by le l')
  end.

(** The order of [sort_values(["Blend","Player"])] on the board's rows. *)
Definition entry_blend_le (x y : Entry) : bool := row_le x y.

(** The order of an Int64 column, <NA> last. *)
Definition rank_compare (a b : option Z) : comparison :=
  match a, b with
  | None, None => Eq
  | None, Some _ => Gt
  | Some _, None => Lt
  | Some x, Some y => (x ?= y)%Z
  end.

(** The order of [sort_values(["ADP_Rank","Player"])]. *)
Definition entry_rank_le (x y : Entry) : bool :=
  match rank_compare (ADP_Rank x) (ADP_Rank y) with
  | Eq => String.leb (Player x) (Player y)
  | Lt => true
  | Gt => false
  end.

(** Line 156: the Remaining table. *)
Definition remaining_table (df : list Entry) (drafted : DraftState) : list Entry :=
  sort_by entry_blend_le (remaining_df df drafted).

(** Line 182: the Drafted table. *)
Definition drafted_table (df : list Entry) (drafted : DraftState) : list Entry :=
  sort_by entry_rank_le (drafted_df df drafted).

(** A row of the frame [st.data_editor] returns: the checkbox and the
    cells, as the user left them. *)
Record editor_row := {
  Draft : bool;
  shown :> Entry
}.

(** Lines 157-159: what the editor is given, every box unchecked. *)
Definition editor_input (df : list Entry) (drafted : DraftState)
    : list editor_row :=
  map (Build_editor_row false) (remaining_table df drafted).

(** Line 175: [edited.loc[edited["Draft"] == True, "Player"].tolist()] *)
Definition to_draft (edited : list editor_row) : list string :=
  map (fun r : editor_row => Player r) (filter (fun r => Draft r = true) edited).

(** What the user did in one run. *)
Record widgets := {
  up_pdf : option (list Byte.byte);
  up_csv : option csv_frame;
  edited : list editor_row;         (* the value of the data editor *)
  move_clicked : bool;              (* the Move button *)
  reset_clicked : bool              (* the Reset button *)
}.

(** One run of the script.  The Move button is disabled while nothing is
    checked; [st.rerun()] ends the run. *)
Definition run (pdfplumber : option pdfplumber_module)
    (to_numeric : string → spec_float) (w : widgets) (s : session_state)
    : result session_state :=
  s ← upload pdfplumber to_numeric (up_pdf w) (up_csv w) s;
  if awaiting_upload s then Ok s else
  if move_clicked w && negb (length (to_draft (edited w)) =? 0)
  then Ok {| players_df := players_df s;
             drafted_names := update (drafted_names s) (to_draft (edited w)) |}
  else if reset_clicked w
  then Ok {| players_df := players_df s;
             drafted_names := reset (drafted_names s) |}
  else Ok s.

(** * The vocabulary of the properties *)

Local Open Scope list_scope.

(** ** The order of the sort, as relations *)

(** A float's place in the order, as three integers compared left to
    right: the class (negative infinity, negative, zero, positive, positive
    infinity, NaN), then exponent and mantissa, negated below zero. *)
Definition blend_key (a : spec_float) : Z * Z * Z :=
  match a with
  | S754_infinity true => (0, 0, 0)
  | S754_finite true m e => (1, - e, Zneg m)
  | S754_zero _ => (2, 0, 0)
  | S754_finite false m e => (3, e, Zpos m)
  | S754_infinity false => (4, 0, 0)
  | S754_nan => (5, 0, 0)
  end%Z.

Definition key_compare (k1 k2 : Z * Z * Z) : comparison :=
  match (k1.1.1 ?= k2.1.1)%Z with
  | Eq => match (k1.1.2 ?= k2.1.2)%Z with
          | Eq => (k1.2 ?= k2.2)%Z
          | c => c
          end
  | c => c
  end.

(** [before x y]: the sort may leave [x] above [y]. *)
Definition before (x y : Row) : Prop := row_le x y = true.

(** [blend_le a b]: the score [a] is not after [b], a NaN being after
    every number. *)
Definition blend_le (a b : spec_float) : Prop := blend_compare a b ≠ Gt.



(** ** Frames and ranks *)

(** The ranks of a sorted frame: the row's place, counted from one, when
    its Blend is a number; <NA> when it is NaN. *)
Definition ranked_in_order (l : list Row) : list Entry :=
  imap (fun i r =>
          {| row := r;
             ADP_Rank := if isnan (Blend r) then None
                         else Some (Z.of_nat (i + 1)) |}) l.

Definition rank_entry (n i : nat) (r : Row) : Entry :=
  {| row := r;
     ADP_Rank := if isnan (Blend r) then None else Some (Z.of_nat (n + i + 1)) |}.

(** [roster_of l df]: the rows of [df] are the sorted frame [l], of at most
    300 rows, ranked in order. *)
Definition roster_of (l : list Row) (df : DataFrame) : Prop :=
  StronglySorted before l ∧ length l ≤ 300 ∧
  columns df = schema ∧ records df = ranked_in_order l.

(** The frame of [parse_pdf_cached] before ranking. *)
Definition pdf_frame (rows : list RawRecord) : list Row :=
  head 300 (drop_duplicates (sort_values (map row_of_raw rows))).

(** A frame returned by one of the two ingestion paths. *)
Definition ingested (df : DataFrame) : Prop :=
  (∃ pdfplumber pdf_bytes, parse_pdf_cached pdfplumber pdf_bytes = Ok df) ∨
  (∃ to_numeric csv, parse_csv to_numeric csv = Ok df).

(** The statement that every row has a rank and the ranks are 1..N. *)
Definition ranks_are_1_to_N (df : DataFrame) : Prop :=
  map ADP_Rank (records df) ≡ₚ
  (Some ∘ Z.of_nat) <$> seq 1 (length (records df)).

(** The rows with a score. *)
Definition scored (df : DataFrame) : list Entry :=
  filter (fun e : Entry => isnan (Blend e) = false) (records df).

(** ** The words a pattern reads

    [matches r w]: the pattern [r] can read the word [w] (the anchors read
    nothing). *)

Module ReSem.
Import Re.

Fixpoint matches (ignorecase : bool) (r : regex) (w : list ascii) : Prop :=
  match r with
  | Empty | Bol | Eol | WordB => w = []
  | Char c => ∃ x, w = [x] ∧ char_eq ignorecase c x = true
  | Class p => ∃ x, w = [x] ∧ p x = true
  | Seq r1 r2 =>
      ∃ w1 w2, w = w1 ++ w2 ∧ matches ignorecase r1 w1 ∧ matches ignorecase r2 w2
  | Alt r1 r2 => matches ignorecase r1 w ∨ matches ignorecase r2 w
  | Star p => Forall (fun x => p x = true) w
  | Group _ r' => matches ignorecase r' w
  end.

Fixpoint group_free (r : regex) : bool :=
  match r with
  | Seq r1 r2 | Alt r1 r2 => group_free r1 && group_free r2
  | Group _ _ => false
  | _ => true
  end.

(** The state after reading [w] from [st], with groups [g]. *)
Definition advance (st : state) (w aft : list ascii) (g : list (nat * string))
    : state :=
  {| before := rev w ++ before st; after := aft; groups := g |}.

(** [accepts r w]: the pattern [r] reads the word [w] without the help of
    an anchor, wherever [w] stands. *)
Fixpoint accepts (ignorecase : bool) (r : regex) (w : list ascii) : Prop :=
  match r with
  | Empty => w = []
  | Bol | Eol | WordB => False
  | Char c => ∃ x, w = [x] ∧ char_eq ignorecase c x = true
  | Class p => ∃ x, w = [x] ∧ p x = true
  | Seq r1 r2 =>
      ∃ w1 w2, w = w1 ++ w2 ∧ accepts ignorecase r1 w1 ∧ accepts ignorecase r2 w2
  | Alt r1 r2 => accepts ignorecase r1 w ∨ accepts ignorecase r2 w
  | Star p => Forall (fun x => p x = true) w
  | Group _ r' => accepts ignorecase r' w
  end.

End ReSem.

(** ** Example inputs *)

(** A page with one ranking table and no text. *)
Definition example_page : page :=
  {| extract_tables :=
       Some [[[Some "Rank"; Some "Player"; Some "Team"; Some "Pos"; Some "BLEND"];
              [Some "1"; Some "Nikola Jokic"; Some "DEN"; Some "C"; Some "1.5"];
              [Some "2"; Some "Joel Embiid"; Some "PHI"; Some "C"; Some "2.5"];
              [Some "3"; Some "Zach Edey"; Some "MEM"; Some "C"; Some "n/a"]]];
     extract_text := None |}.

Definition example_pdfplumber : pdfplumber_module :=
  {| pdf_open := fun _ => Ok [example_page] |}.

(** A document whose only page holds a title and a link. *)
Definition blank_page : page :=
  {| extract_tables := Some [];
     extract_text := Some "Hashtag Basketball ADP Data
https://example.com/ADP" |}.

Definition blank_pdfplumber : pdfplumber_module :=
  {| pdf_open := fun _ => Ok [blank_page] |}.

(** A reading of score cells that knows the plain decimals. *)
Definition decimal_cell (s : string) : spec_float :=
  match float s with
  | Ok f => f
  | Raise _ => S754_nan
  end.

(** A CSV with the synonyms of the player and score columns; the last
    row has no number in its score cell. *)
Definition example_csv : csv_frame :=
  {| csv_columns := ["name"; "avg_draft_position"];
     csv_rows := [["Victor Wembanyama"; "1.5"]; ["Nikola Jokic"; "1.25"];
                  ["Cooper Flagg"; "-"]] |}.

Definition csv_row (player : string) (blend : spec_float) : Row :=
  {| Player := player; Team := ""; Pos := ""; Blend := blend |}.

Definition example_csv_roster : DataFrame :=
  {| columns := schema;
     records :=
       [ {| row := csv_row "Nikola Jokic" (dyadic 5 (-2));
            ADP_Rank := Some 1%Z |};
         {| row := csv_row "Victor Wembanyama" (dyadic 3 (-1));
            ADP_Rank := Some 2%Z |};
         {| row := csv_row "Cooper Flagg" S754_nan; ADP_Rank := None |} ] |}.

(** A CSV that lists one player twice. *)
Definition duplicate_csv : csv_frame :=
  {| csv_columns := ["Player"; "Blend"];
     csv_rows := [["Shai Gilgeous-Alexander"; "3.0"];
                  ["Shai Gilgeous-Alexander"; "5.0"]] |}.

Definition jokic : Row :=
  {| Player := "Nikola Jokic"; Team := "DEN"; Pos := "C";
     Blend := dyadic 3 (-1) |}.

Definition embiid : Row :=
  {| Player := "Joel Embiid"; Team := "PHI"; Pos := "C";
     Blend := dyadic 5 (-1) |}.

Definition edey : Row :=
  {| Player := "Zach Edey"; Team := "MEM"; Pos := "C"; Blend := S754_nan |}.

Definition example_roster : DataFrame :=
  {| columns := schema;
     records := [ {| row := jokic; ADP_Rank := Some 1%Z |};
                  {| row := embiid; ADP_Rank := Some 2%Z |};
                  {| row := edey; ADP_Rank := None |} ] |}.

(** A raw record of the player listed twice. *)
Definition shai (team pos : string) (blend : spec_float) : RawRecord :=
  {| raw_player := "Shai Gilgeous-Alexander"; raw_team := team; raw_pos := pos;
     raw_blend := Some blend |}.

(** A table whose data row stops after the team cell. *)
Definition ragged_table : table :=
  [[Some "Player"; Some "Team"; Some "Pos"; Some "BLEND"];
   [Some "Nikola Jokic"; Some "DEN"]].



(** ** Cells that pandas reads as they are written

    [full_name s]: a name of two words or more that begins with a letter.
    [pd.read_csv] keeps such a cell as a str, for it is no number, no
    boolean and no marker of a missing value; so its column has dtype
    object and [sort_values] compares it as a str. *)
Definition full_name (s : string) : bool :=
  (2 <=? length (Str.split s)) &&
  match Str.chars s with
  | c :: _ => Str.isupper c || Str.islower c
  | [] => false
  end.


(** [ends_without_digit s]: [s] is empty, or its last character is an
    ASCII character that is no digit. *)
Definition ends_without_digit (s : string) : bool :=
  match last (Str.chars s) with
  | Some c => (Str.code c <? 128) && negb (Str.isdigit c)
  | None => true
  end.

(** [ascii_text s]: every character of [s] is an ASCII character. *)
Definition ascii_text (s : string) : bool :=
  forallb (fun c => Str.code c <? 128) (Str.chars s).

(** ** Loop bodies that append

    [appends f]: the step [f] leaves the records collected so far as they
    are and appends its own. *)

Definition appends {A R} (f : list R → A → result (list R)) : Prop :=
  ∀ s x, f s x = app s <$> f [] x.

(** ** The columns [parse_csv] reads

    [header_for names syns]: the first of the synonyms [syns] that some
    column name is, case apart. *)

Definition header_for (names syns : list string) : option string :=
  find (fun n => existsb (fun c => String.eqb (Str.lower c) n) names) syns.

(** [reads df syns j]: [j] is the place of a column named, case apart,
    by the first synonym that names a column; there is no [j] when no
    synonym names one. *)
Definition reads (df : csv_frame) (syns : list string) (j : option nat) : Prop :=
  match header_for (csv_columns df) syns with
  | Some n => ∃ i c, j = Some i ∧ csv_columns df !! i = Some c ∧ Str.lower c = n
  | None => j = None
  end.

(** The row [parse_csv] makes of a CSV row, given the places of the four
    columns. *)
Definition csv_row_at (to_numeric : string → spec_float)
    (player : nat) (team pos blend : option nat) (r : list string) : Row :=
  {| Player := cell_at r player;
     Team := match team with Some j => cell_at r j | None => "" end;
     Pos := match pos with Some j => cell_at r j | None => "" end;
     Blend := match blend with
              | Some j => to_numeric (cell_at r j)
              | None => S754_nan
              end |}.

Definition player_synonyms : list string := ["player"; "name"; "player_name"].
Definition blend_synonyms : list string :=
  ["blend"; "adp"; "avg_draft_position"; "avgdraftposition"].
Definition team_synonyms : list string := ["team"; "tm"].
Definition pos_synonyms : list string := ["pos"; "position"].

(** [reads_player df j]: as [reads], with the first column when no synonym
    names one. *)
Definition reads_player (df : csv_frame) (j : nat) : Prop :=
  match header_for (csv_columns df) player_synonyms with
  | Some n => ∃ c, csv_columns df !! j = Some c ∧ Str.lower c = n
  | None => j = 0 ∧ csv_columns df ≠ []
  end.

(** The frame [parse_csv] builds from the places of the four columns. *)
Definition csv_roster (to_numeric : string → spec_float) (df : csv_frame)
    (player : nat) (team pos blend : option nat) : DataFrame :=
  {| columns := schema;
     records :=
       with_rank
         (head 300
            (sort_values
               (map (csv_row_at to_numeric player team pos blend)
                  (csv_rows df)))) |}.

(** A CSV without a score column, its headers in capitals. *)
Definition names_only_csv : csv_frame :=
  {| csv_columns := ["TM"; "NAME"];
     csv_rows := [["OKC"; "Shai Gilgeous-Alexander"]; ["DEN"; "Nikola Jokic"]] |}.

Definition names_only_roster : DataFrame :=
  {| columns := schema;
     records :=
       [ {| row := {| Player := "Nikola Jokic"; Team := "DEN"; Pos := "";
                      Blend := S754_nan |};
            ADP_Rank := None |};
         {| row := {| Player := "Shai Gilgeous-Alexander"; Team := "OKC";
                      Pos := ""; Blend := S754_nan |};
            ADP_Rank := None |} ] |}.

(** The editor's frame after the user has set the boxes to [flags] and
    left the other cells alone. *)
Definition check_boxes (flags : list bool) (table : list Entry) : list editor_row :=
  zip_with Build_editor_row flags table.

(** A session with [example_roster] loaded and one player drafted. *)
Definition example_session : session_state :=
  {| players_df := Some example_roster;
     drafted_names := {["Joel Embiid"]} |}.

(** The user checks the first row of the Remaining table and presses
    Move; a CSV is also waiting in the uploader. *)
Definition example_widgets : widgets :=
  {| up_pdf := None; up_csv := Some example_csv;
     edited := check_boxes [true; false]
                 (remaining_table (records example_roster) {["Joel Embiid"]});
     move_clicked := true; reset_clicked := false |}.

(** [tied x y]: the sort does not tell [x] from [y]: the same player, and
    equal scores or no score in either. *)
Definition tied (x y : Row) : Prop := row_compare x y = Eq.

#[local] Instance tied_dec x y : Decision (tied x y).
Proof. unfold tied. destruct (row_compare x y); [left|right|right]; done. Defined.

(** ** Document chrome

    [says line phrase]: the line holds the phrase, case apart. *)

Definition says (line phrase : string) : Prop :=
  ∃ pre w post, Str.chars line = pre ++ w ++ post ∧
    map Str.lower_char w = map Str.lower_char (Str.chars phrase).

(** [holds_link line]: the line holds http:// or https://, case apart,
    with a character that is not a space after it. *)
Definition holds_link (line : string) : Prop :=
  ∃ pre w c post, Str.chars line = pre ++ w ++ c :: post ∧
    (map Str.lower_char w = Str.chars "http://" ∨
     map Str.lower_char w = Str.chars "https://") ∧
    Str.isspace c = false.

(** ** The normal form of a text

    What is left of a text whose words are joined by single spaces, read
    left to right: [norm_start] before the first word, [norm_word] inside a
    word, [norm_gap] in the white space after a word. *)

Fixpoint norm_word (l : list ascii) : list ascii :=
  match l with
  | [] => []
  | c :: l' =>
      if Str.isspace c
      then (fix norm_gap (l : list ascii) : list ascii :=
              match l with
              | [] => []
              | d :: l'' =>
                  if Str.isspace d then norm_gap l''
                  else ascii_of_nat 32 :: d :: norm_word l''
              end) l'
      else c :: norm_word l'
  end.

Fixpoint norm_gap (l : list ascii) : list ascii :=
  match l with
  | [] => []
  | d :: l' =>
      if Str.isspace d then norm_gap l'
      else ascii_of_nat 32 :: d :: norm_word l'
  end.

Fixpoint norm_start (l : list ascii) : list ascii :=
  match l with
  | [] => []
  | c :: l' => if Str.isspace c then norm_start l' else c :: norm_word l'
  end.

(** Every run of white space replaced by one space; [skip] when the run
    has begun. *)
Fixpoint squeeze (skip : bool) (l : list ascii) : list ascii :=
  match l with
  | [] => []
  | c :: l' =>
      if Str.isspace c
      then if skip then squeeze true l' else ascii_of_nat 32 :: squeeze true l'
      else c :: squeeze false l'
  end.

(** The white space at the end removed. *)
Fixpoint rstrip_chars (l : list ascii) : list ascii :=
  match l with
  | [] => []
  | c :: l' =>
      match rstrip_chars l' with
      | [] => if Str.isspace c then [] else [c]
      | r => c :: r
      end
  end.

(** The words joined by single spaces. *)
Fixpoint join_chars (ts : list (list ascii)) : list ascii :=
  match ts with
  | [] => []
  | [t] => t
  | t :: ts' => t ++ ascii_of_nat 32 :: join_chars ts'
  end.

(** * Properties *)

(** ** The order of the sort *)

Lemma blend_compare_key a b :
  blend_compare a b = key_compare (blend_key a) (blend_key b).
Proof.
  destruct a as [[]|[]| |[] m1 e1], b as [[]|[]| |[] m2 e2];
    try reflexivity; unfold key_compare; cbn [blend_compare blend_key SFcompare default fst snd].
  rewrite Z.compare_opp, (Z.compare_antisym e1 e2).
  destruct (e1 ?= e2)%Z; reflexivity.
Qed.

Lemma key_compare_Lt k1 k2 :
  key_compare k1 k2 = Lt ↔
  (k1.1.1 < k2.1.1 ∨ k1.1.1 = k2.1.1 ∧
     (k1.1.2 < k2.1.2 ∨ k1.1.2 = k2.1.2 ∧ k1.2 < k2.2))%Z.
Proof.
  unfold key_compare.
  destruct (Z.compare_spec k1.1.1 k2.1.1), (Z.compare_spec k1.1.2 k2.1.2),
    (Z.compare_spec k1.2 k2.2); split; intros; try discriminate; try lia;
    reflexivity.
Qed.

Lemma key_compare_Eq k1 k2 :
  key_compare k1 k2 = Eq ↔ k1 = k2.
Proof.
  destruct k1 as [[a1 b1] c1], k2 as [[a2 b2] c2]. unfold key_compare; simpl.
  destruct (Z.compare_spec a1 a2), (Z.compare_spec b1 b2),
    (Z.compare_spec c1 c2); split; intros H'; try discriminate;
    try (injection H'; intros; lia); subst; reflexivity.
Qed.

Lemma key_compare_Gt k1 k2 : key_compare k1 k2 = Gt ↔ key_compare k2 k1 = Lt.
Proof.
  rewrite key_compare_Lt. unfold key_compare.
  destruct (Z.compare_spec k1.1.1 k2.1.1), (Z.compare_spec k1.1.2 k2.1.2),
    (Z.compare_spec k1.2 k2.2); split; intros; try discriminate; try lia;
    reflexivity.
Qed.

Lemma blend_compare_refl a : blend_compare a a = Eq.
Proof. rewrite blend_compare_key. by apply key_compare_Eq. Qed.

Lemma blend_compare_Gt a b : blend_compare a b = Gt ↔ blend_compare b a = Lt.
Proof. rewrite !blend_compare_key. apply key_compare_Gt. Qed.

Lemma blend_compare_Eq_sym a b : blend_compare a b = Eq → blend_compare b a = Eq.
Proof. rewrite !blend_compare_key, !key_compare_Eq. done. Qed.

Lemma blend_compare_Eq_l a b c :
  blend_compare a b = Eq → blend_compare a c = blend_compare b c.
Proof.
  rewrite !blend_compare_key, key_compare_Eq. by intros ->.
Qed.

Lemma blend_compare_Eq_r a b c :
  blend_compare b c = Eq → blend_compare a b = blend_compare a c.
Proof.
  rewrite !blend_compare_key, key_compare_Eq. by intros ->.
Qed.

Lemma blend_compare_Lt_trans a b c :
  blend_compare a b = Lt → blend_compare b c = Lt → blend_compare a c = Lt.
Proof. rewrite !blend_compare_key, !key_compare_Lt. lia. Qed.

Lemma before_spec x y :
  before x y ↔
  blend_compare (Blend x) (Blend y) = Lt ∨
  blend_compare (Blend x) (Blend y) = Eq ∧ String.le (Player x) (Player y).
Proof.
  unfold before, row_le, row_compare, String.le, String.leb.
  destruct (blend_compare _ _); [|intuition congruence..].
  destruct (_ ?= _)%string; simpl; intuition congruence.
Qed.

#[local] Instance before_refl : Reflexive before.
Proof.
  intros x. apply before_spec. right. split; [apply blend_compare_refl|done].
Qed.

#[local] Instance before_trans : Transitive before.
Proof.
  intros x y z [Hxy|[Hxy Hp]]%before_spec [Hyz|[Hyz Hq]]%before_spec;
    apply before_spec.
  - left. eauto using blend_compare_Lt_trans.
  - left. by rewrite <-(blend_compare_Eq_r _ _ _ Hyz).
  - left. by rewrite (blend_compare_Eq_l _ _ _ Hxy).
  - right. split; [|by etrans].
    by rewrite (blend_compare_Eq_l _ _ _ Hxy).
Qed.

#[local] Instance before_total : Total before.
Proof.
  intros x y. rewrite !before_spec.
  destruct (blend_compare (Blend x) (Blend y)) eqn:E.
  - rewrite (blend_compare_Eq_sym _ _ E).
    destruct (total String.le (Player x) (Player y)); naive_solver.
  - by left; left.
  - apply blend_compare_Gt in E. by right; left.
Qed.

(** ** [sort_values] sorts and permutes *)

Lemma insert_row_Permutation x l : insert_row x l ≡ₚ x :: l.
Proof.
  induction l as [|y l IH]; simpl; [done|].
  destruct (row_le x y); [done|].
  by rewrite IH, Permutation_swap.
Qed.

Lemma sort_values_Permutation l : sort_values l ≡ₚ l.
Proof.
  induction l as [|x l IH]; simpl; [done|].
  by rewrite insert_row_Permutation, IH.
Qed.

Lemma insert_row_Sorted x l : Sorted before l → Sorted before (insert_row x l).
Proof.
  induction 1 as [|y l Hl IH Hy]; simpl; [by repeat constructor|].
  destruct (row_le x y) eqn:E.
  - by repeat constructor.
  - assert (before y x) as Hyx by (by destruct (total before x y) as [H'|H'];
      [unfold before in H'; congruence|]).
    constructor; [done|].
    destruct Hy as [|z l' Hz]; simpl in *;
      [by constructor|destruct (row_le x z); by constructor].
Qed.

Lemma sort_values_Sorted l : StronglySorted before (sort_values l).
Proof.
  apply Sorted_StronglySorted; [apply _|].
  induction l; simpl; [constructor|by apply insert_row_Sorted].
Qed.

Lemma StronglySorted_sublist {A} (R : relation A) l k :
  k `sublist_of` l → StronglySorted R l → StronglySorted R k.
Proof.
  induction 1 as [|x k l Hs IH|x k l Hs IH]; intros Hl;
    [done| |];
    apply StronglySorted_inv in Hl as [Hl Hx]; [|by auto].
  constructor; [by auto|].
  eapply Forall_forall. intros y Hy.
  eapply Forall_forall in Hx; [done|]. by eapply elem_of_sublist.
Qed.

Lemma StronglySorted_lookup {A} (R : relation A) l i j x y :
  StronglySorted R l → i < j → l !! i = Some x → l !! j = Some y → R x y.
Proof.
  intros Hl. revert i j. induction Hl as [|z l Hl IH Hz]; intros i j Hij Hi Hj.
  - done.
  - destruct j as [|j]; [lia|]. destruct i as [|i]; simplify_eq/=.
    + eapply Forall_forall in Hz; [done|]. by eapply list_elem_of_lookup_2.
    + eapply (IH i j); [lia|done..].
Qed.

(** ** [drop_duplicates] keeps the first row of each name *)

Lemma drop_duplicates_from_sublist seen l :
  drop_duplicates_from seen l `sublist_of` l.
Proof.
  revert seen. induction l as [|x l IH]; intros seen; simpl; [done|].
  case_decide; [by apply sublist_cons|by apply sublist_skip].
Qed.

Lemma drop_duplicates_from_fresh seen l x :
  x ∈ drop_duplicates_from seen l → Player x ∉ seen.
Proof.
  revert seen. induction l as [|y l IH]; intros seen; simpl;
    [by intros ?%elem_of_nil|].
  case_decide as Hy; [by auto|].
  intros [->|Hx%IH]%elem_of_cons; [done|set_solver].
Qed.

Lemma drop_duplicates_from_NoDup seen l :
  NoDup (map Player (drop_duplicates_from seen l)).
Proof.
  revert seen. induction l as [|x l IH]; intros seen; simpl; [constructor|].
  case_decide; [done|]. simpl. constructor; [|done].
  intros (y & Hxy & Hy%drop_duplicates_from_fresh)%(list_elem_of_fmap_1 Player).
  set_solver.
Qed.

Lemma drop_duplicates_from_covers seen l x :
  x ∈ l → Player x ∉ seen →
  ∃ y, y ∈ drop_duplicates_from seen l ∧ Player y = Player x.
Proof.
  revert seen. induction l as [|z l IH]; intros seen; simpl;
    [by intros ?%elem_of_nil|].
  intros [->|Hx]%elem_of_cons Hseen.
  - rewrite decide_False by done. eexists; split; [apply list_elem_of_here|done].
  - case_decide as Hz; [by auto|].
    destruct (decide (Player x = Player z)) as [Heq|Hne].
    + eexists; split; [apply list_elem_of_here|done].
    + destruct (IH ({[Player z]} ∪ seen) Hx) as (y & ? & ?).
      { by intros [?%elem_of_singleton|?]%elem_of_union. }
      eexists; split; [by apply list_elem_of_further|done].
Qed.

(** On a sorted frame the row that survives is one the order puts first
    among the rows of its name. *)
Lemma drop_duplicates_from_first (R : relation Row) `{!Reflexive R} seen l e r :
  StronglySorted R l →
  e ∈ drop_duplicates_from seen l → r ∈ l → Player r = Player e → R e r.
Proof.
  intros Hl. revert seen.
  induction Hl as [|x l Hl IH Hx]; intros seen; simpl;
    [by intros ?%elem_of_nil|].
  case_decide as Hseen.
  - intros He [->|Hr]%elem_of_cons Heq; [|by eauto].
    apply drop_duplicates_from_fresh in He. congruence.
  - intros [->|He]%elem_of_cons [->|Hr]%elem_of_cons Heq; [done| | |by eauto].
    + eapply Forall_forall in Hx; done.
    + apply drop_duplicates_from_fresh in He. set_solver.
Qed.

(** ** [rank(method="first")] on a sorted column *)

Lemma before_blend_le x y : before x y → blend_le (Blend x) (Blend y).
Proof. intros [H|[H _]]%before_spec; unfold blend_le; congruence. Qed.

Lemma SFcompare_blend_compare a b :
  isnan a = false → isnan b = false → SFcompare a b = Some (blend_compare a b).
Proof.
  destruct a as [[]|[]| |[] m1 e1], b as [[]|[]| |[] m2 e2]; done.
Qed.

Lemma blend_le_not_nan a b : blend_le a b → isnan b = false → isnan a = false.
Proof. destruct a, b; done. Qed.

Lemma SFltb_false_above a b : blend_le a b → SFltb b a = false.
Proof.
  intros Hle. unfold SFltb.
  destruct (isnan a) eqn:Ha; [by destruct a, b|].
  destruct (isnan b) eqn:Hb; [by destruct a, b|].
  rewrite SFcompare_blend_compare by done.
  destruct (blend_compare b a) eqn:E; [done| |done].
  by apply blend_compare_Gt in E.
Qed.

Lemma SFltb_or_SFeqb a b :
  blend_le a b → isnan b = false → SFltb a b = negb (SFeqb a b).
Proof.
  intros Hle Hb. pose proof (blend_le_not_nan _ _ Hle Hb) as Ha.
  unfold SFltb, SFeqb. rewrite SFcompare_blend_compare by done.
  by destruct (blend_compare a b) eqn:E.
Qed.

Lemma count_if_app {A} (p : A → bool) l k :
  count_if p (l ++ k) = count_if p l + count_if p k.
Proof. unfold count_if. by rewrite filter_app, length_app. Qed.

Lemma count_if_none {A} (p : A → bool) l :
  Forall (fun y => p y = false) l → count_if p l = 0.
Proof.
  unfold count_if. induction 1 as [|y l Hy _ IH]; [done|].
  rewrite filter_cons_False by congruence. done.
Qed.

Lemma count_if_split {A} (p q : A → bool) l :
  Forall (fun y => p y = negb (q y)) l →
  count_if p l + count_if q l = length l.
Proof.
  unfold count_if. induction 1 as [|y l Hy _ IH]; [done|].
  destruct (q y) eqn:Hq; simpl in Hy.
  - rewrite (filter_cons_False (fun x => p x = true)) by congruence.
    rewrite (filter_cons_True (fun x => q x = true)) by done. simpl. lia.
  - rewrite (filter_cons_True (fun x => p x = true)) by done.
    rewrite (filter_cons_False (fun x => q x = true)) by congruence. simpl. lia.
Qed.

Lemma rank_from_sorted column above l :
  column = above ++ l → StronglySorted blend_le column →
  rank_from column above l =
  imap (fun i x => if isnan x then None
                   else Some (Z.of_nat (length above + i + 1))) l.
Proof.
  revert above. induction l as [|x l IH]; intros above -> Hs; simpl; [done|].
  f_equal.
  - destruct (isnan x) eqn:Hx; [done|]. do 2 f_equal.
    rewrite count_if_app.
    rewrite (count_if_none _ (x :: l)).
    + pose proof (count_if_split (fun y => SFltb y x) (fun y => SFeqb y x) above)
        as Hcount.
      rewrite Nat.add_0_r, <-Nat.add_assoc, Hcount; [lia|].
      apply Forall_forall. intros y Hy. apply SFltb_or_SFeqb; [|done].
      eapply (StronglySorted_app_1_elem_of _ above (x :: l)); [done..|by left].
    + apply StronglySorted_app_1_r in Hs.
      apply StronglySorted_inv in Hs as [_ Hs].
      constructor.
      * apply SFltb_false_above. unfold blend_le. by rewrite blend_compare_refl.
      * eapply Forall_impl; [done|]. intros y. apply SFltb_false_above.
  - rewrite (IH (above ++ [x])); [|by rewrite <-app_assoc|done].
    apply imap_ext. intros i y _. simpl. rewrite length_app. simpl.
    by replace (length above + 1 + i + 1) with (length above + S i + 1) by lia.
Qed.

Lemma zip_with_imap_fmap {A B B' C} (f : A → B → C) (h : A → B') (k : nat → B' → B) l :
  zip_with f l (imap k (h <$> l)) = imap (fun i x => f x (k i (h x))) l.
Proof.
  revert k. induction l as [|x l IH]; intros k; simpl; [done|].
  f_equal. apply IH.
Qed.

Lemma with_rank_sorted l :
  StronglySorted before l → with_rank l = ranked_in_order l.
Proof.
  intros Hl. unfold with_rank, rank_first, ranked_in_order.
  rewrite (rank_from_sorted _ [] (map Blend l)); [|done|].
  - apply (zip_with_imap_fmap Build_Entry Blend).
  - apply (StronglySorted_fmap Blend before blend_le); [|done].
    intros x y. apply before_blend_le.
Qed.

(** ** What both paths return *)

Lemma pdf_frame_sublist rows :
  pdf_frame rows `sublist_of` sort_values (map row_of_raw rows).
Proof.
  unfold pdf_frame, head, drop_duplicates.
  etrans; [apply sublist_take|apply drop_duplicates_from_sublist].
Qed.

Lemma pdf_frame_sorted rows : StronglySorted before (pdf_frame rows).
Proof.
  eapply StronglySorted_sublist; [apply pdf_frame_sublist|apply sort_values_Sorted].
Qed.

Lemma pdf_frame_NoDup rows : NoDup (map Player (pdf_frame rows)).
Proof.
  unfold pdf_frame, head, drop_duplicates.
  apply (sublist_NoDup _
           (Player <$> drop_duplicates_from ∅ (sort_values (map row_of_raw rows)))).
  - apply drop_duplicates_from_NoDup.
  - apply (fmap_sublist Player), sublist_take.
Qed.

Lemma consolidate_records rows :
  records (consolidate rows) = ranked_in_order (pdf_frame rows).
Proof.
  destruct rows as [|t rows]; [done|].
  unfold consolidate. cbn [records]. apply with_rank_sorted, pdf_frame_sorted.
Qed.

Lemma consolidate_columns rows : columns (consolidate rows) = schema.
Proof. by destruct rows. Qed.

Lemma consolidate_roster rows : roster_of (pdf_frame rows) (consolidate rows).
Proof.
  unfold roster_of. split_and!.
  - apply pdf_frame_sorted.
  - unfold pdf_frame, head. rewrite length_take. lia.
  - apply consolidate_columns.
  - apply consolidate_records.
Qed.

Lemma parse_pdf_cached_consolidate pdfplumber pdf_bytes df :
  parse_pdf_cached pdfplumber pdf_bytes = Ok df → ∃ rows, df = consolidate rows.
Proof.
  unfold parse_pdf_cached. destruct pdfplumber as [plumber|].
  - destruct (pdf_open plumber pdf_bytes) as [pages|]; [|done]. simpl.
    destruct (extract_rows pages) as [rows|]; [|done]. simpl.
    intros [= <-]. by exists rows.
  - intros [= <-]. by exists [].
Qed.

Lemma parse_pdf_cached_roster pdfplumber pdf_bytes df :
  parse_pdf_cached pdfplumber pdf_bytes = Ok df →
  ∃ l, roster_of l df ∧ NoDup (map Player l).
Proof.
  intros [rows ->]%parse_pdf_cached_consolidate. exists (pdf_frame rows).
  split; [apply consolidate_roster|apply pdf_frame_NoDup].
Qed.

Lemma parse_csv_roster to_numeric csv df :
  parse_csv to_numeric csv = Ok df → ∃ l, roster_of l df.
Proof.
  unfold parse_csv.
  repeat match goal with
         | |- mbind _ ?m = _ → _ => destruct m; cbn [mbind result_bind]; [|done]
         end.
  intros [= <-]. eexists (head 300 (sort_values _)).
  assert (∀ l, StronglySorted before (head 300 (sort_values l))) as Hsorted.
  { intros l. eapply StronglySorted_sublist;
      [apply sublist_take|apply sort_values_Sorted]. }
  unfold roster_of. split_and!; cbn [columns records].
  - apply Hsorted.
  - unfold head. rewrite length_take. lia.
  - done.
  - apply with_rank_sorted, Hsorted.
Qed.

Lemma ingested_roster df : ingested df → ∃ l, roster_of l df.
Proof.
  intros [(p & b & H)|(tn & csv & H)].
  - apply parse_pdf_cached_roster in H as (l & ? & _). by exists l.
  - by apply parse_csv_roster in H.
Qed.

(** ** What a match has read

    [matches r w]: the pattern [r] can read the word [w] (the anchors read
    nothing).  Whatever [run] hands to its continuation was read this way,
    and a pattern without groups leaves the groups as they were. *)

Module ReFacts.
Import Re ReSem.

Lemma star_sound p k bef aft g res :
  star p k bef aft g = Some res →
  ∃ w aft', aft = w ++ aft' ∧ Forall (fun x => p x = true) w ∧
    k {| before := rev w ++ bef; after := aft'; groups := g |} = Some res.
Proof.
  revert bef. induction aft as [|c aft IH]; intros bef; simpl.
  - intros Hk. by exists [], [].
  - destruct (p c) eqn:Hc; [|intros Hk; by exists [], (c :: aft)].
    destruct (star p k (c :: bef) aft g) as [st|] eqn:Hstar.
    + intros [= ->]. apply IH in Hstar as (w & aft' & -> & Hw & Hk).
      exists (c :: w), aft'. split_and!; [done|by constructor|].
      simpl. by rewrite <-app_assoc.
    + intros Hk. by exists [], (c :: aft).
Qed.

Lemma run_sound ignorecase r k st res :
  run ignorecase r k st = Some res →
  ∃ w aft g, after st = w ++ aft ∧ matches ignorecase r w ∧
    (group_free r = true → g = groups st) ∧ k (advance st w aft g) = Some res.
Proof.
  revert k st. induction r as [|c|p|r1 IH1 r2 IH2|r1 IH1 r2 IH2|p|n r IH| | |];
    intros k st; simpl.
  - intros Hk. exists [], (after st), (groups st). by destruct st.
  - destruct (after st) as [|x aft] eqn:Haft; [done|].
    destruct (char_eq ignorecase c x) eqn:Hc; [|done].
    intros Hk. exists [x], aft, (groups st). split_and!; eauto.
  - destruct (after st) as [|x aft] eqn:Haft; [done|].
    destruct (p x) eqn:Hc; [|done].
    intros Hk. exists [x], aft, (groups st). split_and!; eauto.
  - intros (w1 & aft1 & g1 & Haft1 & Hw1 & Hg1 & Hk)%IH1.
    apply IH2 in Hk as (w2 & aft2 & g2 & Haft2 & Hw2 & Hg2 & Hk).
    simpl in *. exists (w1 ++ w2), aft2, g2. split_and!.
    + by rewrite Haft1, Haft2, app_assoc.
    + by exists w1, w2.
    + intros [??]%andb_prop. rewrite Hg2, Hg1; done.
    + unfold advance in *. simpl in *.
      by rewrite rev_app_distr, <-app_assoc.
  - destruct (run ignorecase r1 k st) as [st'|] eqn:H1.
    + intros [= ->].
      apply IH1 in H1 as (w & aft & g & ? & ? & Hg & ?).
      exists w, aft, g. split_and!; [done|by left| |done].
      intros [??]%andb_prop. auto.
    + intros (w & aft & g & ? & ? & Hg & ?)%IH2.
      exists w, aft, g. split_and!; [done|by right| |done].
      intros [??]%andb_prop. auto.
  - intros (w & aft & -> & Hw & Hk)%star_sound.
    exists w, aft, (groups st). by split_and!.
  - intros (w & aft & g & ? & ? & _ & Hk)%IH.
    exists w, aft,
      ((n, Str.of_chars
             (take (length (before (advance st w aft g)) - length (before st))
                (after st))) :: g).
    split_and!; [done|done|done|]. exact Hk.
  - destruct (before st); [|done].
    intros Hk. exists [], (after st), (groups st). by destruct st.
  - intros Hk. exists [], (after st), (groups st).
    split_and!; [done..|].
    destruct st as [bef [|c [|d aft]] g]; simpl in *; [done| |done].
    by destruct (_ =? _).
  - destruct (xorb _ _); [|done].
    intros Hk. exists [], (after st), (groups st). by destruct st.
Qed.

(** A group records the text its pattern read. *)
Lemma run_group_sound ignorecase n r k st res :
  group_free r = true →
  run ignorecase (Group n r) k st = Some res →
  ∃ w aft, after st = w ++ aft ∧ matches ignorecase r w ∧
    k (advance st w aft ((n, Str.of_chars w) :: groups st)) = Some res.
Proof.
  intros Hfree. simpl.
  intros (w & aft & g & Haft & Hw & Hg & Hk)%run_sound.
  exists w, aft. split_and!; [done..|].
  simpl in Hk. rewrite (Hg Hfree) in Hk.
  rewrite length_app, length_rev, Haft in Hk.
  replace (length w + length (before st) - length (before st)) with (length w)
    in Hk by lia.
  by rewrite take_app_length in Hk.
Qed.

Lemma search_from_sound ignorecase r bef aft m :
  search_from ignorecase r bef aft = Some m →
  ∃ bef' aft' st,
    run ignorecase r Some (start_state bef' aft') = Some st ∧ m = found bef' st.
Proof.
  revert bef. induction aft as [|c aft IH]; intros bef; simpl.
  - destruct (run _ _ _ _) as [st|] eqn:Hrun; [|done].
    intros [= <-]. eauto.
  - destruct (run _ _ _ _) as [st|] eqn:Hrun; [|by eauto].
    intros [= <-]. eauto.
Qed.

End ReFacts.

(** ** [float] never raises on what the patterns capture *)

Lemma split_point_digits d :
  Forall (fun x => Str.isdigit x = true) d →
  split_point d = (d, None) ∧
  ∀ c rest, Str.code c = 46 → split_point (d ++ c :: rest) = (d, Some rest).
Proof.
  induction 1 as [|x d Hx _ [IH1 IH2]]; simpl.
  - split; [done|]. intros c rest ->. done.
  - assert ((Str.code x =? 46) = false) as ->.
    { unfold Str.isdigit in Hx. apply Nat.eqb_neq.
      apply andb_prop in Hx as [?%Nat.leb_le ?%Nat.leb_le]. lia. }
    rewrite IH1. split; [done|]. intros c rest Hc. by rewrite IH2.
Qed.

Lemma all_digits_cons x d :
  Str.isdigit x = true → Forall (fun x => Str.isdigit x = true) d →
  all_digits (x :: d) = true.
Proof.
  intros Hx Hd. unfold all_digits. simpl. rewrite Hx. simpl.
  induction Hd as [|y d Hy _ IH]; simpl; [done|]. by rewrite Hy.
Qed.

Lemma float_decimal w :
  ReSem.matches false Pat.decimal w → ∃ f, float (Str.of_chars w) = Ok f.
Proof.
  intros (w1 & w2 & -> & (? & d1 & -> & (x & -> & Hx) & Hd1) & Hfrac).
  simpl in Hd1. unfold float, Str.of_chars, Str.chars.
  rewrite list_ascii_of_string_of_list_ascii.
  pose proof (split_point_digits (x :: d1)) as [Hint Hpoint];
    [by constructor|].
  destruct Hfrac as [(? & ? & -> & (c & -> & Hc) &
                      (? & d2 & -> & (y & -> & Hy) & Hd2))| ->];
    cbn [app] in *.
  - rewrite Hpoint by (by apply Nat.eqb_eq in Hc).
    rewrite !all_digits_cons by done. simpl. eauto.
  - rewrite app_nil_r, Hint, all_digits_cons by done. eauto.
Qed.

Lemma float_group1_number s m :
  Re.search false Pat.number s = Some m → ∃ f, float_group1 m = Ok f.
Proof.
  intros (bef & aft & st & Hrun & ->)%ReFacts.search_from_sound.
  apply ReFacts.run_group_sound in Hrun as (w & aft' & _ & Hw & [= <-]); [|done].
  unfold float_group1, Re.group. simpl. by apply float_decimal.
Qed.

Lemma float_group1_trailing_number s m :
  Re.search false Pat.trailing_number s = Some m → ∃ f, float_group1 m = Ok f.
Proof.
  intros (bef & aft & st & Hrun & ->)%ReFacts.search_from_sound.
  change (Re.run false (Re.Group 1 Pat.decimal)
            (Re.run false (Re.Seq (Re.Star Str.isspace) Re.Eol) Some)
            (Re.start_state bef aft) = Some st) in Hrun.
  apply (ReFacts.run_group_sound false 1 Pat.decimal) in Hrun
    as (w & aft' & _ & Hw & Hrest); [|done].
  apply (ReFacts.run_sound false (Re.Seq (Re.Star Str.isspace) Re.Eol)) in Hrest
    as (w' & aft'' & g & _ & _ & Hg & [= <-]).
  unfold float_group1, Re.group. simpl. rewrite (Hg eq_refl). simpl.
  by apply float_decimal.
Qed.

(** The decimals of the examples, as floats. *)
Lemma float_examples :
  float "3.0" = Ok (dyadic 3 0) ∧ float "4.0" = Ok (dyadic 4 0) ∧
  float "5.0" = Ok (dyadic 5 0) ∧ float "1.5" = Ok (dyadic 3 (-1)) ∧
  float "2.5" = Ok (dyadic 5 (-1)) ∧ float "1.25" = Ok (dyadic 5 (-2)).
Proof. repeat split; vm_compute; reflexivity. Qed.

(** ** The extraction of lines 21-91 always returns *)

Lemma for_each_total {A S} (f : S → A → result S) l s :
  (∀ s x, ∃ s', f s x = Ok s') → ∃ s', for_each f l s = Ok s'.
Proof.
  intros Hf. revert s. induction l as [|x l IH]; intros s; simpl; [by eauto|].
  destruct (Hf s x) as [s' ->]. simpl. apply IH.
Qed.

Lemma append_record_total {A} (parse : A → result (option RawRecord)) rows x :
  (∃ rec, parse x = Ok rec) → ∃ rows', append_record parse rows x = Ok rows'.
Proof. intros [rec Hrec]. unfold append_record. rewrite Hrec. simpl. eauto. Qed.

Lemma table_row_total player_idx team_idx pos_idx blend_idx r :
  ∃ rec, table_row player_idx team_idx pos_idx blend_idx r = Ok rec.
Proof.
  unfold table_row. destruct (negb (any r)); [by eauto|].
  destruct (_ || _); [by eauto|].
  destruct (if Str.truthy _ then _ else _) as [m|] eqn:Hm; simpl; [|by eauto].
  destruct (Str.truthy _); [|done].
  apply float_group1_number in Hm as [f ->]. simpl. eauto.
Qed.

Lemma text_line_total raw : ∃ rec, text_line raw = Ok rec.
Proof.
  unfold text_line. destruct (negb _); [by eauto|].
  destruct (bool_decide _); [by eauto|].
  destruct (Re.search false Pat.trailing_number _) as [m|] eqn:Hm; [|by eauto].
  apply float_group1_trailing_number in Hm as [f ->].
  cbn [mbind result_bind].
  destruct (match Re.search false Pat.paren_pos _ with
            | Some _ => _ | None => _ end) as [pos body].
  destruct (match last _ with Some _ => _ | None => _ end) as [team parts].
  destruct (bool_decide _); [by eauto|].
  destruct (_ <=? _); eauto.
Qed.

Lemma extract_table_total rows tbl : ∃ rows', extract_table rows tbl = Ok rows'.
Proof.
  unfold extract_table. destruct (find_header tbl); [|by eauto].
  apply for_each_total. intros s x. apply append_record_total, table_row_total.
Qed.

Lemma extract_page_total rows pg : ∃ rows', extract_page rows pg = Ok rows'.
Proof.
  unfold extract_page.
  destruct (for_each_total extract_table (default [] (extract_tables pg)) rows)
    as [rows' ->]; [apply extract_table_total|]. simpl.
  apply for_each_total. intros s x. apply append_record_total, text_line_total.
Qed.

Lemma extract_rows_total pages : ∃ rows, extract_rows pages = Ok rows.
Proof. apply for_each_total, extract_page_total. Qed.

(** Once pdfplumber has opened the document, [parse_pdf_cached] returns. *)
Lemma parse_pdf_cached_returns plumber pdf_bytes pages :
  pdf_open plumber pdf_bytes = Ok pages →
  ∃ rows, extract_rows pages = Ok rows ∧
          parse_pdf_cached (Some plumber) pdf_bytes = Ok (consolidate rows).
Proof.
  intros Hopen. destruct (extract_rows_total pages) as [rows Hrows].
  exists rows. split; [done|].
  unfold parse_pdf_cached. rewrite Hopen. cbn [mbind result_bind].
  by rewrite Hrows.
Qed.

Lemma example_roster_parsed :
  parse_pdf_cached (Some example_pdfplumber) [] = Ok example_roster.
Proof. vm_compute. reflexivity. Qed.

(** ** The draft state *)

(** C3. For every roster and every drafted set, the names of the remaining
    rows together with the names of the drafted rows are the names of the
    roster, and no name is on both sides. *)
Theorem remaining_drafted_partition (df : list Entry) (drafted : DraftState) :
  names (remaining_df df drafted) ∪ names (drafted_df df drafted) = names df ∧
  names (remaining_df df drafted) ∩ names (drafted_df df drafted) = ∅.
Proof.
  unfold names, remaining_df, drafted_df. split.
  - apply set_eq. intros p.
    rewrite elem_of_union, !elem_of_list_to_set, !list_elem_of_fmap.
    setoid_rewrite list_elem_of_filter. split.
    + intros [(e & ? & ? & ?)|(e & ? & ? & ?)]; eauto.
    + intros (e & -> & ?). destruct (decide (Player e ∈ drafted)); eauto.
  - apply set_eq. intros p.
    rewrite elem_of_intersection, !elem_of_list_to_set, !list_elem_of_fmap.
    setoid_rewrite list_elem_of_filter. split; [|set_solver].
    intros [(e & -> & ? & ?) (e' & Heq & ? & ?)]. congruence.
Qed.

(** C4. A move to drafted with the selection X leaves the drafted set
    united with X; it only adds names; with nothing selected the set is
    unchanged; a second move with the same selection changes nothing. *)
Theorem move_to_drafted_idempotent (drafted : DraftState) (X : list string) :
  move_to_drafted drafted X = drafted ∪ list_to_set X ∧
  drafted ⊆ move_to_drafted drafted X ∧
  move_to_drafted drafted [] = drafted ∧
  move_to_drafted (move_to_drafted drafted X) X = move_to_drafted drafted X.
Proof.
  assert (move_to_drafted drafted X = drafted ∪ list_to_set X) as Hmove.
  { unfold move_to_drafted, update. case_bool_decide as HX; [|done].
    apply nil_length_inv in HX as ->. simpl. by rewrite (right_id_L ∅ (∪)). }
  split_and!; [done|rewrite Hmove; apply union_subseteq_l|done|].
  unfold move_to_drafted at 1. case_bool_decide; [done|].
  unfold update. rewrite Hmove.
  by rewrite <-(assoc_L (∪)), (idemp_L (∪)).
Qed.

(** ** The text-line extractor on a sample line *)

(** C7. The text-line extractor, on the single line
    "7. Luka Doncic (PG/SG) DAL 4.0", emits exactly one record: player
    "Luka Doncic", team "DAL", position "PG/SG", score 4.0.  On the way the
    trailing number "4.0" is the score, the leading "7. " is stripped, the
    group in parentheses is the position and the last token, of three
    capitals, is the team. *)
Theorem text_line_luka_doncic :
  let line := "7. Luka Doncic (PG/SG) DAL 4.0" in
  let luka := {| raw_player := "Luka Doncic"; raw_team := "DAL";
                 raw_pos := "PG/SG"; raw_blend := Some (dyadic 4 0) |} in
  text_line line = Ok (Some luka) ∧
  extract_page [] {| extract_tables := None; extract_text := Some line |}
    = Ok [luka] ∧
  (m ← Re.search false Pat.trailing_number line; Re.group m 1) = Some "4.0" ∧
  Re.sub false Pat.leading_index ""
    (Str.strip (Re.sub false Pat.trailing_number "" line))
    = "Luka Doncic (PG/SG) DAL" ∧
  (m ← Re.search false Pat.paren_pos "Luka Doncic (PG/SG) DAL"; Re.group m 1)
    = Some "PG/SG" ∧
  is_Some (Re.fullmatch false Pat.team_code "DAL").
Proof. repeat split; vm_compute; eauto. Qed.

(** ** No data *)

(** C8. When pdfplumber cannot be imported, or when the document opens
    and the extraction finds no record, [parse_pdf_cached] returns (it does
    not raise) the empty frame with the five columns Player, Team, Pos,
    Blend, ADP_Rank. *)
Theorem parse_pdf_cached_no_data (pdfplumber : option pdfplumber_module)
    (pdf_bytes : list Byte.byte) :
  (pdfplumber = None ∨
   ∃ plumber pages, pdfplumber = Some plumber ∧
     pdf_open plumber pdf_bytes = Ok pages ∧ extract_rows pages = Ok []) →
  parse_pdf_cached pdfplumber pdf_bytes =
    Ok {| columns := ["Player"; "Team"; "Pos"; "Blend"; "ADP_Rank"];
          records := [] |}.
Proof.
  intros [->|(plumber & pages & -> & Hopen & Hrows)]; [done|].
  unfold parse_pdf_cached. by rewrite Hopen; simpl; rewrite Hrows.
Qed.

Lemma parse_pdf_cached_no_data_witness :
  (Some blank_pdfplumber = None ∨
   ∃ plumber pages, Some blank_pdfplumber = Some plumber ∧
     pdf_open plumber [] = Ok pages ∧ extract_rows pages = Ok []) ∧
  parse_pdf_cached (Some blank_pdfplumber) [] =
    Ok {| columns := ["Player"; "Team"; "Pos"; "Blend"; "ADP_Rank"];
          records := [] |}.
Proof.
  assert (Some blank_pdfplumber = None ∨
          ∃ plumber pages, Some blank_pdfplumber = Some plumber ∧
            pdf_open plumber [] = Ok pages ∧ extract_rows pages = Ok []) as H.
  { right. exists blank_pdfplumber, [blank_page].
    repeat split; vm_compute; reflexivity. }
  split; [exact H|].
  exact (parse_pdf_cached_no_data (Some blank_pdfplumber) [] H).
Defined.

(** ** The cap *)

(** C9. A frame returned by either ingestion path has at most 300 rows. *)
Theorem roster_length_cap pdfplumber pdf_bytes to_numeric csv (df : DataFrame) :
  parse_pdf_cached pdfplumber pdf_bytes = Ok df ∨
  parse_csv to_numeric csv = Ok df →
  length (records df) ≤ 300.
Proof.
  intros H.
  assert (ingested df) as (l & _ & Hlen & _ & ->)%ingested_roster.
  { destruct H; [left|right]; eauto. }
  unfold ranked_in_order. by rewrite length_imap.
Qed.

Lemma roster_length_cap_witness :
  (parse_pdf_cached (Some example_pdfplumber) [] = Ok example_roster ∧
   length (records example_roster) ≤ 300) ∧
  (parse_csv decimal_cell example_csv = Ok example_csv_roster ∧
   length (records example_csv_roster) ≤ 300).
Proof.
  assert (parse_pdf_cached (Some example_pdfplumber) [] = Ok example_roster)
    as Hpdf by (vm_compute; reflexivity).
  assert (parse_csv decimal_cell example_csv = Ok example_csv_roster)
    as Hcsv by (vm_compute; reflexivity).
  split; (split; [assumption|]).
  - exact (roster_length_cap (Some example_pdfplumber) [] decimal_cell
             example_csv example_roster (or_introl Hpdf)).
  - exact (roster_length_cap None [] decimal_cell example_csv
             example_csv_roster (or_intror Hcsv)).
Defined.

(** ** The order of the rows *)





(** ** The ranks *)

Lemma imap_rank_entry_cons n x l :
  imap (rank_entry n) (x :: l) = rank_entry n 0 x :: imap (rank_entry (S n)) l.
Proof.
  simpl. f_equal. apply imap_ext. intros i r _. unfold rank_entry. simpl.
  by replace (n + S i + 1) with (S (n + i + 1)) by lia.
Qed.

Lemma ranks_all_null n l :
  Forall (fun r => isnan (Blend r) = true) l →
  filter (fun e : Entry => isnan (Blend e) = false) (imap (rank_entry n) l) = [] ∧
  map ADP_Rank (imap (rank_entry n) l) = replicate (length l) None.
Proof.
  intros Hl. revert n. induction Hl as [|x l Hx _ IH]; intros n; [done|].
  rewrite imap_rank_entry_cons. destruct (IH (S n)) as [IH1 IH2].
  rewrite filter_cons_False by (simpl; congruence).
  split; [done|]. simpl. by rewrite Hx, IH2.
Qed.

Lemma ranks_shape n l :
  StronglySorted before l →
  let es := imap (rank_entry n) l in
  let k := length (filter (fun e : Entry => isnan (Blend e) = false) es) in
  map ADP_Rank es =
  ((Some ∘ Z.of_nat) <$> seq (n + 1) k) ++ replicate (length l - k) None.
Proof.
  intros Hl. revert n. induction Hl as [|x l Hl IH Hx]; intros n; [done|].
  cbv zeta in *. rewrite imap_rank_entry_cons.
  destruct (isnan (Blend x)) eqn:Hnan.
  - assert (Forall (fun r => isnan (Blend r) = true) l) as Hnull.
    { eapply Forall_impl; [done|]. intros y Hy%before_blend_le.
      destruct (isnan (Blend y)) eqn:Hy'; [done|].
      by rewrite (blend_le_not_nan _ _ Hy Hy') in Hnan. }
    destruct (ranks_all_null (S n) l Hnull) as [Hnone Hranks].
    rewrite filter_cons_False by (simpl; congruence).
    rewrite Hnone. simpl. by rewrite Hnan, Hranks.
  - rewrite filter_cons_True by done.
    simpl. rewrite Hnan, IH. simpl.
    by replace (n + 0 + 1) with (n + 1) by lia.
Qed.

(** C1 (amended). In a frame returned by either ingestion path a row
    with a score has the rank of its place, counted from one, and a row
    whose score is null has no rank; so the ranks, read down the rows, are
    1..k for the k rows with a score, followed by <NA> for the others. *)
Theorem scored_rows_ranked_in_order pdfplumber pdf_bytes to_numeric csv
    (df : DataFrame) :
  parse_pdf_cached pdfplumber pdf_bytes = Ok df ∨
  parse_csv to_numeric csv = Ok df →
  (∀ i e, records df !! i = Some e →
     ADP_Rank e = if isnan (Blend e) then None else Some (Z.of_nat (i + 1))) ∧
  map ADP_Rank (records df) =
    ((Some ∘ Z.of_nat) <$> seq 1 (length (scored df))) ++
    replicate (length (records df) - length (scored df)) None.
Proof.
  intros H.
  assert (ingested df) as (l & Hl & _ & _ & Hdf)%ingested_roster.
  { destruct H; [left|right]; eauto. }
  unfold scored. rewrite Hdf. split.
  - intros i e. unfold ranked_in_order. rewrite list_lookup_imap.
    destruct (l !! i) as [r|]; [|done]. by intros [= <-].
  - change (ranked_in_order l) with (imap (rank_entry 0) l).
    rewrite (ranks_shape 0 l Hl) at 1. by rewrite length_imap.
Qed.

Lemma scored_rows_ranked_in_order_witness :
  (parse_pdf_cached (Some example_pdfplumber) [] = Ok example_roster ∧
   (∀ i e, records example_roster !! i = Some e →
      ADP_Rank e = if isnan (Blend e) then None else Some (Z.of_nat (i + 1))) ∧
   map ADP_Rank (records example_roster) =
     ((Some ∘ Z.of_nat) <$> seq 1 (length (scored example_roster))) ++
     replicate
       (length (records example_roster) - length (scored example_roster)) None) ∧
  (parse_csv decimal_cell example_csv = Ok example_csv_roster ∧
   (∀ i e, records example_csv_roster !! i = Some e →
      ADP_Rank e = if isnan (Blend e) then None else Some (Z.of_nat (i + 1))) ∧
   map ADP_Rank (records example_csv_roster) =
     ((Some ∘ Z.of_nat) <$> seq 1 (length (scored example_csv_roster))) ++
     replicate
       (length (records example_csv_roster) - length (scored example_csv_roster))
       None).
Proof.
  assert (parse_pdf_cached (Some example_pdfplumber) [] = Ok example_roster)
    as Hpdf by (vm_compute; reflexivity).
  assert (parse_csv decimal_cell example_csv = Ok example_csv_roster)
    as Hcsv by (vm_compute; reflexivity).
  split; (split; [assumption|]).
  - exact (scored_rows_ranked_in_order (Some example_pdfplumber) []
             decimal_cell example_csv example_roster (or_introl Hpdf)).
  - exact (scored_rows_ranked_in_order None [] decimal_cell example_csv
             example_csv_roster (or_intror Hcsv)).
Defined.

(** C1, as stated, fails: the frame parsed from [example_page] has three
    rows; the third, whose score is null, has no rank, and the ranks are
    not a permutation of 1..3. *)
Lemma null_score_row_has_no_rank :
  parse_pdf_cached (Some example_pdfplumber) [] = Ok example_roster ∧
  0 < length (records example_roster) ∧
  records example_roster !! 2 = Some {| row := edey; ADP_Rank := None |} ∧
  ¬ ranks_are_1_to_N example_roster.
Proof.
  split_and!; [by vm_compute|simpl; lia|done|].
  unfold ranks_are_1_to_N. intros Hperm.
  assert (None ∈ map ADP_Rank (records example_roster)) as Hnone
    by (do 2 apply list_elem_of_further; apply list_elem_of_here).
  rewrite Hperm in Hnone. simpl in Hnone.
  repeat (apply elem_of_cons in Hnone as [?|Hnone]; [done|]).
  by apply elem_of_nil in Hnone.
Qed.

(** ** Player names *)

(** The PDF path drops the later rows of a name: no two rows of its frame
    share a player. *)
Lemma parse_pdf_cached_players_unique pdfplumber pdf_bytes df :
  parse_pdf_cached pdfplumber pdf_bytes = Ok df →
  NoDup (map (fun e : Entry => Player e) (records df)).
Proof.
  intros (l & (_ & _ & _ & ->) & Hdup)%parse_pdf_cached_roster.
  unfold ranked_in_order.
  replace (map (fun e : Entry => Player e) (imap _ l)) with (map Player l); [done|].
  rewrite <-(imap_const Player l) at 1.
  change (map ?f ?l) with (f <$> l). by rewrite fmap_imap.
Qed.

(** C2 on [parse_csv]: the CSV path has no [drop_duplicates]; both rows
    of [duplicate_csv] are returned, whatever the score cells read as. *)
Theorem parse_csv_keeps_duplicate_players (to_numeric : string → spec_float) :
  ∃ x y : Entry, records <$> parse_csv to_numeric duplicate_csv = Ok [x; y] ∧
         Player x = "Shai Gilgeous-Alexander" ∧
         Player y = "Shai Gilgeous-Alexander" ∧
         ¬ NoDup [Player x; Player y].
Proof.
  assert (∀ x y : Entry, Player x = Player y → ¬ NoDup [Player x; Player y])
    as Hdup.
  { intros x y -> Hnodup. apply NoDup_cons in Hnodup as [Hin _]. set_solver. }
  unfold parse_csv.
  repeat match goal with
  | |- context [pick ?c ?n] =>
      let v := eval vm_compute in (pick c n) in change (pick c n) with v
  end.
  repeat match goal with
  | |- context [column_or ?d ?c ?r ?o] =>
      let v := eval vm_compute in (column_or d c r o) in
      change (column_or d c r o) with v
  end.
  cbn [mbind result_bind csv_rows duplicate_csv map sort_values insert_row].
  destruct (row_le _ _);
    cbn [head take with_rank rank_first rank_from map zip_with fmap
         result_fmap records Blend app];
    do 2 eexists; (split; [reflexivity|]); split_and!; try done;
    by apply Hdup.
Qed.

(** ** Duplicates in the PDF path *)

Lemma elem_of_ranked_in_order e l : e ∈ ranked_in_order l → row e ∈ l.
Proof.
  unfold ranked_in_order.
  intros (i & r & -> & Hr)%elem_of_lookup_imap_1.
  by eapply list_elem_of_lookup_2.
Qed.

Lemma consolidate_NoDup rows :
  NoDup (map (fun e : Entry => Player e) (records (consolidate rows))).
Proof.
  rewrite consolidate_records. unfold ranked_in_order.
  replace (map (fun e : Entry => Player e) (imap _ (pdf_frame rows)))
    with (map Player (pdf_frame rows)); [apply pdf_frame_NoDup|].
  rewrite <-(imap_const Player (pdf_frame rows)) at 1.
  change (map ?f ?l) with (f <$> l). by rewrite fmap_imap.
Qed.

Lemma consolidate_first rows (e : Entry) t :
  e ∈ records (consolidate rows) → t ∈ rows → raw_player t = Player e →
  before e (row_of_raw t).
Proof.
  rewrite consolidate_records. intros He%elem_of_ranked_in_order Ht Hname.
  unfold pdf_frame, head, drop_duplicates in He.
  pose proof (elem_of_sublist _ _ _ He (sublist_take _ _)) as He'.
  eapply (drop_duplicates_from_first before ∅); [apply sort_values_Sorted|exact He'| |done].
  rewrite sort_values_Permutation. by apply list_elem_of_fmap_2.
Qed.

(** C6. Consolidation keeps one row per player name, the first after the
    sort by (score, name): a surviving row has a score no higher than any
    record of its name (a missing score counting as the highest).  In
    particular, of two records named "Shai Gilgeous-Alexander" with scores
    3.0 and 5.0, in either order, exactly one row survives, with score 3.0. *)
Theorem consolidate_keeps_lowest_score :
  (∀ rows, NoDup (map (fun e : Entry => Player e) (records (consolidate rows)))) ∧
  (∀ rows (e : Entry) (t : RawRecord),
     e ∈ records (consolidate rows) → t ∈ rows → raw_player t = Player e →
     blend_le (Blend e) (to_numeric_blend (raw_blend t))) ∧
  (∀ team3 pos3 team5 pos5,
     let survivor :=
       {| row := {| Player := "Shai Gilgeous-Alexander"; Team := team3;
                    Pos := pos3; Blend := dyadic 3 0 |};
          ADP_Rank := Some 1%Z |} in
     let three := shai team3 pos3 (dyadic 3 0) in
     let five := shai team5 pos5 (dyadic 5 0) in
     records (consolidate [three; five]) = [survivor] ∧
     records (consolidate [five; three]) = [survivor]).
Proof.
  split_and!.
  - apply consolidate_NoDup.
  - intros rows e t He Ht Hname.
    apply (before_blend_le e (row_of_raw t)). by apply (consolidate_first rows).
  - intros team3 pos3 team5 pos5. split; vm_compute; reflexivity.
Qed.

Lemma consolidate_keeps_lowest_score_witness :
  let rows := [shai "OKC" "PG" (dyadic 5 0); shai "" "" (dyadic 3 0)] in
  let e := {| row := {| Player := "Shai Gilgeous-Alexander"; Team := "";
                        Pos := ""; Blend := dyadic 3 0 |};
              ADP_Rank := Some 1%Z |} in
  e ∈ records (consolidate rows) ∧
  shai "OKC" "PG" (dyadic 5 0) ∈ rows ∧
  raw_player (shai "OKC" "PG" (dyadic 5 0)) = Player e ∧
  blend_le (Blend e) (to_numeric_blend (raw_blend (shai "OKC" "PG" (dyadic 5 0)))).
Proof.
  intros rows e.
  assert (e ∈ records (consolidate rows)) as He
    by (vm_compute; apply list_elem_of_here).
  assert (shai "OKC" "PG" (dyadic 5 0) ∈ rows) as Ht by apply list_elem_of_here.
  split; [exact He|]. split; [exact Ht|]. split; [reflexivity|].
  exact (proj1 (proj2 consolidate_keeps_lowest_score) rows e
           (shai "OKC" "PG" (dyadic 5 0)) He Ht eq_refl).
Defined.

(** ** Ragged table rows *)

Lemma g_out_of_range (r : list cell) idx :
  length r ≤ idx → getitem r idx = Raise IndexError ∧ g r idx = None.
Proof.
  intros Hidx. unfold g, getitem. by rewrite lookup_ge_None_2.
Qed.

Lemma _clean_None : _clean None = "".
Proof. reflexivity. Qed.

(** C10 (amended). Reading a cell of a data row at an index beyond the
    row's length raises inside [g] only: [g] returns [None].  So no row,
    ragged or not, makes the table extractor raise: the row is skipped or
    gives a record.  A row whose player cell is out of range is skipped;
    in a record, the team and the position are empty and the score is null
    whenever their own column lies beyond the row's length. *)
Theorem ragged_row_reads (r : list cell) (player_idx : nat)
    (team_idx pos_idx blend_idx : option nat) :
  (∀ idx, length r ≤ idx → getitem r idx = Raise IndexError ∧ g r idx = None) ∧
  (∃ out, table_row player_idx team_idx pos_idx blend_idx r = Ok out) ∧
  (∀ t, table_row player_idx team_idx pos_idx blend_idx r = Ok (Some t) →
     player_idx < length r ∧
     (∀ i, team_idx = Some i → length r ≤ i → raw_team t = "") ∧
     (∀ i, pos_idx = Some i → length r ≤ i → raw_pos t = "") ∧
     (∀ i, blend_idx = Some i → length r ≤ i → raw_blend t = None)).
Proof.
  split_and!; [apply g_out_of_range|apply table_row_total|].
  intros t. unfold table_row. destruct (negb (any r)); [done|].
  destruct (decide (player_idx < length r)) as [Hp|Hp]; cycle 1.
  { destruct (g_out_of_range r player_idx) as [_ ->]; [lia|].
    by rewrite _clean_None. }
  destruct (_ || _); [done|].
  destruct (match (if Str.truthy _ then _ else _) with
            | Some _ => _ | None => _ end) as [blend|] eqn:Hblend;
    cbn [mbind result_bind]; [|done].
  intros [= <-]. cbn [raw_team raw_pos raw_blend].
  split_and!; [done|..]; intros i -> Hi;
    destruct (g_out_of_range r i Hi) as [_ Hg].
  - by rewrite Hg.
  - by rewrite Hg.
  - rewrite Hg, _clean_None in Hblend. simpl in Hblend. congruence.
Qed.

Lemma ragged_row_reads_witness :
  let r := [Some "Nikola Jokic"; Some "DEN"] in
  let t := {| raw_player := "Nikola Jokic"; raw_team := "DEN"; raw_pos := "";
              raw_blend := None |} in
  length r ≤ 3 ∧
  table_row 0 (Some 1) (Some 2) (Some 3) r = Ok (Some t) ∧
  g r 3 = None ∧ raw_pos t = "" ∧ raw_blend t = None.
Proof.
  intros r t.
  assert (length r ≤ 3) as Hlen by (simpl; lia).
  assert (table_row 0 (Some 1) (Some 2) (Some 3) r = Ok (Some t)) as Hrow
    by (vm_compute; reflexivity).
  pose proof (ragged_row_reads r 0 (Some 1) (Some 2) (Some 3))
    as (Hg & _ & Hrec).
  destruct (Hrec t Hrow) as (_ & _ & Hpos & Hblend).
  split; [exact Hlen|]. split; [exact Hrow|].
  split; [exact (proj2 (Hg 3 Hlen))|].
  split; [exact (Hpos 2 eq_refl ltac:(simpl; lia))|exact (Hblend 3 eq_refl Hlen)].
Defined.

(** C10, as stated, fails: the data row of [ragged_table] has fewer cells
    than the header, and the record it gives has the team "DEN". *)
Lemma ragged_row_keeps_its_team :
  let t := {| raw_player := "Nikola Jokic"; raw_team := "DEN"; raw_pos := "";
              raw_blend := None |} in
  length [Some "Nikola Jokic"; Some "DEN"] <
    length [Some "Player"; Some "Team"; Some "Pos"; Some "BLEND"] ∧
  extract_table [] ragged_table = Ok [t] ∧
  ¬ (raw_team t = "" ∧ raw_pos t = "" ∧ raw_blend t = None).
Proof.
  split_and!; [simpl; lia|by vm_compute|]. by intros [? _].
Qed.

(** * Further properties *)

(** ** Loops that append *)

Lemma for_each_app {A S} (f : S → A → result S) l k s :
  for_each f (l ++ k) s = for_each f l s ≫= for_each f k.
Proof.
  revert s. induction l as [|x l IH]; intros s; simpl; [done|].
  destruct (f s x) as [s'|e]; simpl; [apply IH|done].
Qed.

Lemma for_each_invariant {A S} (P : S → Prop) (f : S → A → result S) l s s' :
  (∀ s x s', P s → f s x = Ok s' → P s') →
  P s → for_each f l s = Ok s' → P s'.
Proof.
  intros Hf. revert s. induction l as [|x l IH]; intros s Hs; simpl.
  - by intros [= <-].
  - destruct (f s x) as [s1|e] eqn:Hx; simpl; [|done]. eauto.
Qed.

Lemma fmap_app_assoc {R} (s n : list R) (m : result (list R)) :
  app (s ++ n) <$> m = app s <$> (app n <$> m).
Proof. destruct m; simpl; [|done]. by rewrite <-app_assoc. Qed.

Lemma for_each_appends {A R} (f : list R → A → result (list R)) l s :
  appends f → for_each f l s = app s <$> for_each f l [].
Proof.
  intros Hf. revert s. induction l as [|x l IH]; intros s; simpl.
  - by rewrite app_nil_r.
  - rewrite (Hf s x). destruct (f [] x) as [n|e]; simpl; [|done].
    rewrite (IH (s ++ n)), (IH n). apply fmap_app_assoc.
Qed.

Lemma append_record_appends {A} (parse : A → result (option RawRecord)) :
  appends (append_record parse).
Proof.
  intros s x. unfold append_record.
  destruct (parse x) as [[t|]|e]; simpl; [done| |done].
  by rewrite app_nil_r.
Qed.

Lemma extract_table_appends : appends extract_table.
Proof.
  intros s tbl. unfold extract_table.
  destruct (find_header tbl); simpl; [|by rewrite app_nil_r].
  apply for_each_appends, append_record_appends.
Qed.

Lemma extract_page_appends : appends extract_page.
Proof.
  intros s pg. unfold extract_page.
  rewrite (for_each_appends extract_table _ s) by apply extract_table_appends.
  destruct (for_each extract_table _ []) as [n|e]; simpl; [|done].
  rewrite (for_each_appends _ _ (s ++ n)), (for_each_appends _ _ n)
    by apply append_record_appends.
  apply fmap_app_assoc.
Qed.

(** ** The extraction, page by page *)

(** X1. Once pdfplumber has opened the document, [parse_pdf_cached] returns
    a frame for whatever the pages hold: the [float] calls of lines 55 and
    71 cannot raise.  An exception of [pdfplumber.open] is the only one that
    reaches the caller. *)
Theorem parse_pdf_cached_raises_only_on_open (plumber : pdfplumber_module)
    (pdf_bytes : list Byte.byte) :
  match pdf_open plumber pdf_bytes with
  | Ok pages =>
      ∃ rows, extract_rows pages = Ok rows ∧
        parse_pdf_cached (Some plumber) pdf_bytes = Ok (consolidate rows)
  | Raise e => parse_pdf_cached (Some plumber) pdf_bytes = Raise e
  end.
Proof.
  destruct (pdf_open plumber pdf_bytes) as [pages|e] eqn:Hopen.
  - destruct (extract_rows_total pages) as [rows Hrows]. exists rows.
    split; [done|]. unfold parse_pdf_cached. rewrite Hopen.
    cbn [mbind result_bind]. by rewrite Hrows.
  - unfold parse_pdf_cached. by rewrite Hopen.
Qed.

(** X2. The records of a document are those of its pages, in page order:
    extracting from the pages [ps ++ qs] gives the records of [ps] followed
    by those of [qs]. *)
Theorem extract_rows_app (ps qs : list page) :
  extract_rows (ps ++ qs) =
  (r1 ← extract_rows ps; r2 ← extract_rows qs; Ok (r1 ++ r2)).
Proof.
  unfold extract_rows. rewrite for_each_app.
  destruct (for_each extract_page ps []) as [r1|e]; simpl; [|done].
  rewrite (for_each_appends extract_page qs r1) by apply extract_page_appends.
  by destruct (for_each extract_page qs []).
Qed.

(** ** What the extractors emit *)

Lemma table_row_tokens player_idx team_idx pos_idx blend_idx r t :
  table_row player_idx team_idx pos_idx blend_idx r = Ok (Some t) →
  2 ≤ length (Str.split (raw_player t)).
Proof.
  unfold table_row. destruct (negb (any r)); [done|].
  destruct (_ || _) eqn:Hname; [done|].
  apply orb_false_elim in Hname as [_ Hlen%Nat.ltb_ge].
  destruct (match (if Str.truthy _ then _ else _) with
            | Some _ => _ | None => _ end) as [blend|];
    cbn [mbind result_bind]; [|done].
  by intros [= <-].
Qed.

Lemma text_line_tokens raw t :
  text_line raw = Ok (Some t) → 2 ≤ length (Str.split (raw_player t)).
Proof.
  unfold text_line. destruct (negb _); [done|].
  destruct (bool_decide _); [done|].
  destruct (Re.search false Pat.trailing_number _) as [m|]; [|done].
  destruct (float_group1 m) as [f|]; cbn [mbind result_bind]; [|done].
  destruct (match Re.search false Pat.paren_pos _ with
            | Some _ => _ | None => _ end) as [pos body].
  destruct (match last _ with Some _ => _ | None => _ end) as [team parts].
  destruct (bool_decide _); [done|].
  destruct (2 <=? _) eqn:Hlen; [|done].
  intros [= <-]. by apply Nat.leb_le.
Qed.

Lemma append_record_Forall {A} (P : RawRecord → Prop)
    (parse : A → result (option RawRecord)) rows x rows' :
  (∀ t, parse x = Ok (Some t) → P t) →
  Forall P rows → append_record parse rows x = Ok rows' → Forall P rows'.
Proof.
  intros Hparse Hrows. unfold append_record.
  destruct (parse x) as [[t|]|e]; simpl; [| |done]; intros [= <-]; [|done].
  apply Forall_app. split; [done|]. constructor; [by apply Hparse|constructor].
Qed.

(** A property of every record of the two extractors holds of every
    record of the document. *)
Lemma extract_rows_Forall (P : RawRecord → Prop) pages rows :
  (∀ player_idx team_idx pos_idx blend_idx r t,
     table_row player_idx team_idx pos_idx blend_idx r = Ok (Some t) → P t) →
  (∀ raw t, text_line raw = Ok (Some t) → P t) →
  extract_rows pages = Ok rows → Forall P rows.
Proof.
  intros Htable Htext. unfold extract_rows.
  apply (for_each_invariant (Forall P)); [|constructor].
  intros s pg s' Hs. unfold extract_page.
  destruct (for_each extract_table _ s) as [s1|e] eqn:Htables; simpl; [|done].
  assert (Forall P s1) as Hs1.
  { revert Htables. apply (for_each_invariant (Forall P)); [|done].
    intros s2 tbl s3 Hs2. unfold extract_table.
    destruct (find_header tbl); [|by intros [= <-]].
    apply (for_each_invariant (Forall P)); [|done].
    intros s4 r s5 Hs4. apply append_record_Forall; [|done]. apply Htable. }
  apply (for_each_invariant (Forall P)); [|done].
  intros s2 raw s3 Hs2. apply append_record_Forall; [|done]. apply Htext.
Qed.

Lemma parse_pdf_cached_inv pdfplumber pdf_bytes df :
  parse_pdf_cached pdfplumber pdf_bytes = Ok df →
  df = empty_frame ∨
  ∃ plumber pages rows, pdfplumber = Some plumber ∧
    pdf_open plumber pdf_bytes = Ok pages ∧ extract_rows pages = Ok rows ∧
    df = consolidate rows.
Proof.
  unfold parse_pdf_cached. destruct pdfplumber as [plumber|]; [|by left; congruence].
  destruct (pdf_open plumber pdf_bytes) as [pages|] eqn:Hopen; [|done].
  cbn [mbind result_bind].
  destruct (extract_rows pages) as [rows|] eqn:Hrows; [|done].
  cbn [mbind result_bind]. intros [= <-]. right. by exists plumber, pages, rows.
Qed.

Lemma consolidate_from_record rows (e : Entry) :
  e ∈ records (consolidate rows) → ∃ t, t ∈ rows ∧ row e = row_of_raw t.
Proof.
  rewrite consolidate_records. intros He%elem_of_ranked_in_order.
  pose proof (elem_of_sublist _ _ _ He (pdf_frame_sublist rows)) as Hs.
  rewrite sort_values_Permutation in Hs.
  apply list_elem_of_fmap in Hs as (t & -> & Ht). by exists t.
Qed.

(** X3. Every row of a frame of the PDF path has a player name of at
    least two words: both extractors drop the other names (lines 49, 90). *)
Theorem pdf_players_have_two_words pdfplumber pdf_bytes df (e : Entry) :
  parse_pdf_cached pdfplumber pdf_bytes = Ok df → e ∈ records df →
  2 ≤ length (Str.split (Player e)).
Proof.
  intros [->|(plumber & pages & rows & _ & _ & Hrows & ->)]%parse_pdf_cached_inv.
  { by intros ?%elem_of_nil. }
  intros (t & Ht & ->)%consolidate_from_record. simpl.
  apply (extract_rows_Forall (fun t => 2 ≤ length (Str.split (raw_player t))))
    in Hrows.
  - by eapply Forall_forall in Hrows.
  - intros ??????. apply table_row_tokens.
  - apply text_line_tokens.
Qed.

Lemma pdf_players_have_two_words_witness :
  let e := {| row := jokic; ADP_Rank := Some 1%Z |} in
  parse_pdf_cached (Some example_pdfplumber) [] = Ok example_roster ∧
  e ∈ records example_roster ∧
  2 ≤ length (Str.split (Player e)).
Proof.
  intros e.
  assert (parse_pdf_cached (Some example_pdfplumber) [] = Ok example_roster)
    as Hpdf by (vm_compute; reflexivity).
  assert (e ∈ records example_roster) as He by apply list_elem_of_here.
  split; [exact Hpdf|]. split; [exact He|].
  exact (pdf_players_have_two_words (Some example_pdfplumber) []
           example_roster e Hpdf He).
Defined.

(** X4. No two rows of a frame of the PDF path have the same player:
    rows at different places have different names (line 100). *)
Theorem pdf_players_distinct pdfplumber pdf_bytes df (i j : nat) (x y : Entry) :
  parse_pdf_cached pdfplumber pdf_bytes = Ok df →
  records df !! i = Some x → records df !! j = Some y →
  Player x = Player y → i = j.
Proof.
  intros Hdf%parse_pdf_cached_players_unique Hx Hy Hxy.
  eapply NoDup_lookup; [exact Hdf| |].
  - rewrite list_lookup_fmap, Hx. done.
  - rewrite list_lookup_fmap, Hy. simpl. by rewrite Hxy.
Qed.

Lemma pdf_players_distinct_witness :
  let x := {| row := embiid; ADP_Rank := Some 2%Z |} in
  parse_pdf_cached (Some example_pdfplumber) [] = Ok example_roster ∧
  records example_roster !! 1 = Some x ∧ records example_roster !! 1 = Some x ∧
  Player x = Player x ∧ 1 = 1.
Proof.
  intros x.
  assert (parse_pdf_cached (Some example_pdfplumber) [] = Ok example_roster)
    as Hpdf by (vm_compute; reflexivity).
  split; [exact Hpdf|]. split; [reflexivity|]. split; [reflexivity|].
  split; [reflexivity|].
  exact (pdf_players_distinct (Some example_pdfplumber) [] example_roster 1 1
           x x Hpdf eq_refl eq_refl eq_refl).
Defined.

(** ** What consolidation keeps *)

Lemma pdf_frame_lookup_entry rows i r :
  pdf_frame rows !! i = Some r →
  ∃ e : Entry, e ∈ records (consolidate rows) ∧ row e = r.
Proof.
  intros Hi. rewrite consolidate_records. unfold ranked_in_order.
  eexists (Build_Entry r _). split; [|done].
  eapply elem_of_lookup_imap_2 in Hi. exact Hi.
Qed.

(** X5. Consolidation invents nothing: every row of the frame carries the
    player, team, position and (coerced) score of one of the records. *)
Theorem consolidate_row_of_some_record (rows : list RawRecord) (e : Entry) :
  e ∈ records (consolidate rows) →
  ∃ t, t ∈ rows ∧
    Player e = raw_player t ∧ Team e = raw_team t ∧ Pos e = raw_pos t ∧
    Blend e = to_numeric_blend (raw_blend t).
Proof.
  intros (t & Ht & ->)%consolidate_from_record. by exists t.
Qed.

Lemma consolidate_row_of_some_record_witness :
  let rows := [shai "OKC" "PG" (dyadic 5 0); shai "" "" (dyadic 3 0)] in
  let e := {| row := {| Player := "Shai Gilgeous-Alexander"; Team := "";
                        Pos := ""; Blend := dyadic 3 0 |};
              ADP_Rank := Some 1%Z |} in
  e ∈ records (consolidate rows) ∧
  ∃ t, t ∈ rows ∧
    Player e = raw_player t ∧ Team e = raw_team t ∧ Pos e = raw_pos t ∧
    Blend e = to_numeric_blend (raw_blend t).
Proof.
  intros rows e.
  assert (e ∈ records (consolidate rows)) as He
    by (vm_compute; apply list_elem_of_here).
  split; [exact He|].
  exact (consolidate_row_of_some_record rows e He).
Defined.

(** X6. A record's player is missing from the frame only when the cap cut
    it: either the frame has a row of that player, or the frame is full (300
    rows) and each of its rows sorts before the record. *)
Theorem consolidate_record_kept_or_cut (rows : list RawRecord) (t : RawRecord) :
  t ∈ rows →
  (∃ e : Entry, e ∈ records (consolidate rows) ∧ Player e = raw_player t) ∨
  (length (records (consolidate rows)) = 300 ∧
   ∀ e : Entry, e ∈ records (consolidate rows) → row_le e (row_of_raw t) = true).
Proof.
  intros Ht.
  set (sorted := sort_values (map row_of_raw rows)).
  set (unique := drop_duplicates sorted).
  assert (StronglySorted before unique) as Hunique.
  { eapply StronglySorted_sublist;
      [apply drop_duplicates_from_sublist|apply sort_values_Sorted]. }
  assert (row_of_raw t ∈ sorted) as Hsorted.
  { unfold sorted. rewrite sort_values_Permutation. by apply list_elem_of_fmap_2. }
  destruct (drop_duplicates_from_covers ∅ sorted (row_of_raw t) Hsorted)
    as (y & Hy & Hname); [by intros ?%elem_of_empty|].
  fold (drop_duplicates sorted) in Hy. fold unique in Hy.
  apply list_elem_of_lookup in Hy as [i Hi].
  destruct (decide (i < 300)) as [Hlt|Hge].
  - left. destruct (pdf_frame_lookup_entry rows i y) as (e & He & Hrow).
    { unfold pdf_frame, head. fold sorted. fold unique.
      by rewrite lookup_take_lt. }
    exists e. split; [done|]. by rewrite Hrow, Hname.
  - right. split.
    + rewrite consolidate_records. unfold ranked_in_order.
      rewrite length_imap. unfold pdf_frame, head. fold sorted. fold unique.
      rewrite length_take. apply lookup_lt_Some in Hi. lia.
    + intros e He. rewrite consolidate_records in He.
      apply elem_of_ranked_in_order in He.
      apply list_elem_of_lookup in He as [j Hj].
      unfold pdf_frame, head in Hj. fold sorted in Hj. fold unique in Hj.
      apply lookup_take_Some in Hj as [Hj Hj300].
      change (before e (row_of_raw t)). etrans.
      * apply (StronglySorted_lookup before unique j i); [done|lia|done..].
      * apply (drop_duplicates_from_first before ∅ sorted);
          [apply sort_values_Sorted| |done..].
        by eapply list_elem_of_lookup_2.
Qed.

Lemma consolidate_record_kept_or_cut_witness :
  let rows := [shai "OKC" "PG" (dyadic 5 0); shai "" "" (dyadic 3 0)] in
  let t := shai "OKC" "PG" (dyadic 5 0) in
  t ∈ rows ∧
  ((∃ e : Entry, e ∈ records (consolidate rows) ∧ Player e = raw_player t) ∨
   (length (records (consolidate rows)) = 300 ∧
    ∀ e : Entry, e ∈ records (consolidate rows) →
      row_le e (row_of_raw t) = true)).
Proof.
  intros rows t.
  assert (t ∈ rows) as Ht by apply list_elem_of_here.
  split; [exact Ht|]. exact (consolidate_record_kept_or_cut rows t Ht).
Defined.

(** ** The scores read from a document *)

Lemma iter_pos_invariant {A} (P : A → Prop) (f : A → A) p x :
  (∀ y, P y → P (f y)) → P x → P (SpecFloat.iter_pos f p x).
Proof.
  intros Hf. revert x. induction p as [p IH|p IH|]; intros x Hx; simpl; auto.
Qed.

Lemma shr_1_nonneg mrs : (0 ≤ shr_m mrs)%Z → (0 ≤ shr_m (shr_1 mrs))%Z.
Proof. destruct mrs as [[|[p|p|]|p] r s]; simpl; lia. Qed.

Lemma shr_fexp_nonneg m e l :
  (0 ≤ m)%Z → (0 ≤ shr_m (shr_fexp prec emax m e l).1)%Z.
Proof.
  intros Hm. unfold shr_fexp, shr.
  assert (0 ≤ shr_m (shr_record_of_loc m l))%Z as H0
    by (by destruct l as [|[]]).
  destruct (_ - e)%Z; simpl; [done| |done].
  by apply (iter_pos_invariant (fun mrs => (0 ≤ shr_m mrs)%Z)); [apply shr_1_nonneg|].
Qed.

Lemma binary_round_aux_nonneg m e l :
  (0 ≤ m)%Z →
  SFleb (S754_zero false) (binary_round_aux prec emax false m e l) = true.
Proof.
  intros Hm. unfold binary_round_aux.
  pose proof (shr_fexp_nonneg m e l Hm) as H1.
  destruct (shr_fexp prec emax m e l) as [mrs' e'].
  assert (0 ≤ round_nearest_even (shr_m mrs') (loc_of_shr_record mrs'))%Z as H2.
  { unfold round_nearest_even. simpl in H1.
    destruct (loc_of_shr_record mrs') as [|[]]; [done| |done|lia].
    destruct (Z.even _); lia. }
  pose proof (shr_fexp_nonneg _ e' loc_Exact H2) as H3.
  destruct (shr_fexp prec emax _ e' loc_Exact) as [mrs'' e'']. simpl in H3.
  destruct (shr_m mrs''); [done| |lia]. by destruct (_ <=? _)%Z.
Qed.

Lemma decimal_to_float_nonneg n k :
  SFleb (S754_zero false) (decimal_to_float n k) = true.
Proof.
  unfold decimal_to_float.
  destruct n as [|m|m]; [done| |done].
  destruct (10 ^ Z.of_nat k)%Z as [|d|d]; [done| |done].
  unfold SFdiv, SFdiv_core_binary.
  destruct (Z.div_eucl _ (Z.pos d)) as [q r] eqn:Hdiv. simpl.
  apply binary_round_aux_nonneg.
  assert (q = fst (Z.div_eucl
                     match (0 - 0 - Z.min (fexp prec emax
                             (Zdigits2 (Z.pos m) + 0 - (Zdigits2 (Z.pos d) + 0)))
                             (0 - 0))%Z with
                     | Z.pos _ => Z.shiftl (Z.pos m) (0 - 0 - Z.min (fexp prec emax
                             (Zdigits2 (Z.pos m) + 0 - (Zdigits2 (Z.pos d) + 0)))
                             (0 - 0))
                     | 0%Z => Z.pos m
                     | Z.neg _ => 0%Z
                     end (Z.pos d))) as -> by (by rewrite Hdiv).
  apply Z.div_pos; [|lia].
  destruct (0 - 0 - _)%Z; [lia| |lia]. apply Z.shiftl_nonneg. lia.
Qed.

(** A score [float] returns is a number, zero or more, or +infinity. *)
Lemma float_nonneg s f : float s = Ok f → SFleb (S754_zero false) f = true.
Proof.
  unfold float. destruct (split_point _) as [i [fr|]].
  - destruct (_ && _); [|done]. intros [= <-]. apply decimal_to_float_nonneg.
  - destruct (all_digits i); [|done]. intros [= <-].
    apply decimal_to_float_nonneg.
Qed.

Lemma float_group1_nonneg m f :
  float_group1 m = Ok f → SFleb (S754_zero false) f = true.
Proof.
  unfold float_group1. destruct (Re.group m 1); [apply float_nonneg|done].
Qed.

Lemma table_row_score player_idx team_idx pos_idx blend_idx r t f :
  table_row player_idx team_idx pos_idx blend_idx r = Ok (Some t) →
  raw_blend t = Some f → SFleb (S754_zero false) f = true.
Proof.
  unfold table_row. destruct (negb (any r)); [done|].
  destruct (_ || _); [done|].
  destruct (if Str.truthy _ then _ else _) as [m|];
    cbn [mbind result_bind fmap result_fmap].
  - destruct (float_group1 m) as [f'|] eqn:Hf; cbn [mbind result_bind]; [|done].
    intros [= <-] [= <-]. by eapply float_group1_nonneg.
  - by intros [= <-].
Qed.

Lemma text_line_score raw t f :
  text_line raw = Ok (Some t) →
  raw_blend t = Some f → SFleb (S754_zero false) f = true.
Proof.
  unfold text_line. destruct (negb _); [done|].
  destruct (bool_decide _); [done|].
  destruct (Re.search false Pat.trailing_number _) as [m|]; [|done].
  destruct (float_group1 m) as [f'|] eqn:Hf; cbn [mbind result_bind]; [|done].
  destruct (match Re.search false Pat.paren_pos _ with
            | Some _ => _ | None => _ end) as [pos body].
  destruct (match last _ with Some _ => _ | None => _ end) as [team parts].
  destruct (bool_decide _); [done|].
  destruct (2 <=? _); [|done].
  intros [= <-] [= <-]. by eapply float_group1_nonneg.
Qed.

Lemma lstrip_chars_head l c r :
  Str.lstrip_chars l = c :: r → Str.isspace c = false.
Proof.
  induction l as [|x l IH]; simpl; [done|].
  destruct (Str.isspace x) eqn:Hx; [done|]. by intros [= <- _].
Qed.

(** A cleaned text does not end in white space. *)
Lemma _clean_last s c :
  last (Str.chars (_clean s)) = Some c → Str.isspace c = false.
Proof.
  unfold _clean, Str.strip, Str.chars at 1, Str.of_chars at 1.
  rewrite list_ascii_of_string_of_list_ascii. unfold Str.strip_chars.
  destruct (Str.lstrip_chars (rev _)) as [|d r] eqn:Hstrip; [done|].
  simpl. rewrite last_snoc. intros [= <-]. by eapply lstrip_chars_head.
Qed.

(** Where [search] finds a match, the pattern runs from some place of the
    text. *)
Lemma search_from_split ignorecase r bef aft m :
  Re.search_from ignorecase r bef aft = Some m →
  ∃ pre suf st, aft = pre ++ suf ∧
    Re.run ignorecase r Some (Re.start_state (rev pre ++ bef) suf) = Some st.
Proof.
  revert bef. induction aft as [|c aft IH]; intros bef; simpl.
  - destruct (Re.run _ _ _ _) as [st|] eqn:Hrun; [|done].
    intros _. by exists [], [], st.
  - destruct (Re.run _ _ _ _) as [st|] eqn:Hrun.
    + intros _. by exists [], (c :: aft), st.
    + intros (pre & suf & st & -> & Hst)%IH. exists (c :: pre), suf, st.
      split; [done|]. simpl. by rewrite <-app_assoc.
Qed.

Lemma Forall_last {A} (P : A → Prop) (x : A) l :
  P x → Forall P l → ∃ l' d, x :: l = l' ++ [d] ∧ P d.
Proof.
  intros Hx Hl. destruct l as [|y l] using rev_ind.
  - by exists [], x.
  - apply Forall_app in Hl as [_ Hy%Forall_inv]. by exists (x :: l), y.
Qed.

Lemma plus_last p w :
  ReSem.matches false (Re.Plus p) w → ∃ w' d, w = w' ++ [d] ∧ p d = true.
Proof.
  intros (? & l & -> & (x & -> & Hx) & Hl). simpl in Hl.
  by apply (Forall_last (fun c => p c = true)).
Qed.

(** A numeral ends in a digit. *)
Lemma decimal_last w :
  ReSem.matches false Pat.decimal w →
  ∃ w' d, w = w' ++ [d] ∧ Str.isdigit d = true.
Proof.
  intros (w1 & w2 & -> & Hint & [(pt & w3 & -> & _ & Hfrac)| ->]).
  - apply plus_last in Hfrac as (w' & d & -> & Hd).
    exists (w1 ++ pt ++ w'), d. by rewrite <-!app_assoc.
  - rewrite app_nil_r. by apply plus_last.
Qed.

(** A cleaned line in which the pattern of line 68 finds a numeral ends in
    a digit. *)
Lemma trailing_number_last s m :
  Re.search false Pat.trailing_number (_clean s) = Some m →
  ∃ d, last (Str.chars (_clean s)) = Some d ∧ Str.isdigit d = true.
Proof.
  intros (pre & suf & st & Hline & Hrun)%search_from_split.
  change (Re.run false (Re.Group 1 Pat.decimal)
            (Re.run false (Re.Seq (Re.Star Str.isspace) Re.Eol) Some)
            (Re.start_state (rev pre ++ []) suf) = Some st) in Hrun.
  apply (ReFacts.run_group_sound false 1 Pat.decimal) in Hrun
    as (w & aft & Hsuf & Hw & Hrest); [|done].
  simpl in Hsuf, Hrest. subst suf.
  apply ReFacts.star_sound in Hrest as (ws & aft' & -> & Hws & Heol).
  apply decimal_last in Hw as (w' & d & -> & Hd).
  assert (∀ l c, Str.isspace c = true →
            Str.chars (_clean s) ≠ l ++ [c]) as Hspace.
  { intros l c Hc Heq. pose proof (_clean_last s c) as Hlast.
    rewrite Heq, last_snoc in Hlast. specialize (Hlast eq_refl). congruence. }
  simpl in Heol. destruct aft' as [|c [|c' aft']]; [| |done].
  - destruct ws as [|c ws _] using rev_ind.
    + exists d. split; [|done].
      rewrite Hline, !app_nil_r, app_assoc. apply last_snoc.
    + apply Forall_app in Hws as [_ Hc%Forall_inv].
      exfalso. apply (Hspace (pre ++ (w' ++ [d]) ++ ws) c Hc).
      by rewrite Hline, app_nil_r, <-!app_assoc.
  - destruct (Str.code c =? 10) eqn:Hc; [|done]. apply Nat.eqb_eq in Hc.
    exfalso. apply (Hspace (pre ++ (w' ++ [d]) ++ ws) c).
    + unfold Str.isspace. by rewrite Hc.
    + by rewrite Hline, <-!app_assoc.
Qed.

(** X7. A cleaned line that does not end in a digit (it is empty, or its
    last character is an ASCII character other than a digit) gives no
    record; and a record read from a text line always has a score, which is
    a number: zero or more, or +infinity for a numeral beyond the range of
    the floats (lines 62-71, 91). *)
Theorem text_line_score_is_a_number (raw : string) :
  (ends_without_digit (_clean (Some raw)) = true → text_line raw = Ok None) ∧
  (∀ t, text_line raw = Ok (Some t) →
     ∃ f, raw_blend t = Some f ∧ SFleb (S754_zero false) f = true).
Proof.
  split.
  - intros Hend. unfold text_line. destruct (negb _); [done|].
    destruct (bool_decide _); [done|].
    destruct (Re.search false Pat.trailing_number _) as [m|] eqn:Hm; [|done].
    apply trailing_number_last in Hm as (d & Hlast & Hd).
    unfold ends_without_digit in Hend. rewrite Hlast, Hd in Hend.
    by rewrite andb_false_r in Hend.
  - intros t. unfold text_line. destruct (negb _); [done|].
    destruct (bool_decide _); [done|].
    destruct (Re.search false Pat.trailing_number _) as [m|]; [|done].
    destruct (float_group1 m) as [f|] eqn:Hf; cbn [mbind result_bind]; [|done].
    destruct (match Re.search false Pat.paren_pos _ with
              | Some _ => _ | None => _ end) as [pos body].
    destruct (match last _ with Some _ => _ | None => _ end) as [team parts].
    destruct (bool_decide _); [done|].
    destruct (2 <=? _); [|done].
    intros [= <-]. exists f. split; [done|]. by eapply float_group1_nonneg.
Qed.

Lemma text_line_score_is_a_number_witness :
  let t := {| raw_player := "Luka Doncic"; raw_team := "DAL";
              raw_pos := "PG/SG"; raw_blend := Some (dyadic 4 0) |} in
  (ends_without_digit (_clean (Some "Luka Doncic (PG/SG) DAL  ")) = true ∧
   text_line "Luka Doncic (PG/SG) DAL  " = Ok None) ∧
  (text_line "7. Luka Doncic (PG/SG) DAL 4.0" = Ok (Some t) ∧
   ∃ f, raw_blend t = Some f ∧ SFleb (S754_zero false) f = true).
Proof.
  intros t.
  assert (ends_without_digit (_clean (Some "Luka Doncic (PG/SG) DAL  ")) = true)
    as Hend by (vm_compute; reflexivity).
  assert (text_line "7. Luka Doncic (PG/SG) DAL 4.0" = Ok (Some t)) as Ht
    by (vm_compute; reflexivity).
  split; (split; [assumption|]).
  - exact (proj1 (text_line_score_is_a_number "Luka Doncic (PG/SG) DAL  ") Hend).
  - exact (proj2 (text_line_score_is_a_number "7. Luka Doncic (PG/SG) DAL 4.0")
             t Ht).
Defined.

(** X8. A frame of the PDF path has no negative score: the score of a row
    is null, or a number that is zero or more (the patterns of lines 54 and
    68 read digits only, so a minus sign before them is not read). *)
Theorem pdf_scores_not_negative pdfplumber pdf_bytes df (e : Entry) :
  parse_pdf_cached pdfplumber pdf_bytes = Ok df → e ∈ records df →
  isnan (Blend e) = true ∨ SFleb (S754_zero false) (Blend e) = true.
Proof.
  intros [->|(plumber & pages & rows & _ & _ & Hrows & ->)]%parse_pdf_cached_inv.
  { by intros ?%elem_of_nil. }
  intros (t & Ht & ->)%consolidate_from_record. simpl.
  apply (extract_rows_Forall
           (fun t => ∀ f, raw_blend t = Some f →
                          SFleb (S754_zero false) f = true)) in Hrows.
  - eapply Forall_forall in Hrows; [|done].
    destruct (raw_blend t) as [f|]; [right; by apply Hrows|by left].
  - intros ?????? Hrow f Hf. by eapply table_row_score.
  - intros raw t' Hline f Hf. by eapply text_line_score.
Qed.

Lemma pdf_scores_not_negative_witness :
  let e := {| row := edey; ADP_Rank := None |} in
  parse_pdf_cached (Some example_pdfplumber) [] = Ok example_roster ∧
  e ∈ records example_roster ∧
  (isnan (Blend e) = true ∨ SFleb (S754_zero false) (Blend e) = true).
Proof.
  intros e.
  assert (parse_pdf_cached (Some example_pdfplumber) [] = Ok example_roster)
    as Hpdf by (vm_compute; reflexivity).
  assert (e ∈ records example_roster) as He
    by (do 2 apply list_elem_of_further; apply list_elem_of_here).
  split; [exact Hpdf|]. split; [exact He|].
  exact (pdf_scores_not_negative (Some example_pdfplumber) [] example_roster e
           Hpdf He).
Defined.

(** ** The columns of a CSV *)

Lemma find_index_Some {A} (p : A → bool) l j :
  find_index p l = Some j → ∃ x, l !! j = Some x ∧ p x = true.
Proof.
  revert j. induction l as [|x l IH]; intros j; simpl; [done|].
  destruct (p x) eqn:Hx.
  - intros [= <-]. by exists x.
  - destruct (find_index p l) as [i|]; [|done]. simpl. intros [= <-].
    destruct (IH i eq_refl) as (y & ? & ?). by exists y.
Qed.

Lemma find_index_None {A} (p : A → bool) l x :
  find_index p l = None → x ∈ l → p x = false.
Proof.
  induction l as [|y l IH]; simpl; [by intros _ ?%elem_of_nil|].
  destruct (p y) eqn:Hy; [done|].
  destruct (find_index p l); [done|].
  intros _ [->|Hx]%elem_of_cons; [done|by apply IH].
Qed.

Lemma foldl_lower_Some (m : gmap string string) names k c :
  foldl (fun m c => <[Str.lower c := c]> m) m names !! k = Some c →
  (c ∈ names ∧ Str.lower c = k) ∨ m !! k = Some c.
Proof.
  revert m. induction names as [|x l IH]; intros m; simpl; [by right|].
  intros [[Hc Hk]|Hm]%IH.
  - left. split; [by right|done].
  - destruct (decide (Str.lower x = k)) as [Heq|Hne].
    + rewrite Heq, lookup_insert_eq in Hm. injection Hm as <-.
      left. split; [by left|done].
    + rewrite lookup_insert_ne in Hm by done. by right.
Qed.

Lemma foldl_lower_None (m : gmap string string) names k :
  foldl (fun m c => <[Str.lower c := c]> m) m names !! k = None ↔
  m !! k = None ∧ ∀ c, c ∈ names → Str.lower c ≠ k.
Proof.
  revert m. induction names as [|x l IH]; intros m; simpl.
  - split; [|by intros [? _]]. intros Hm. split; [done|]. by intros c ?%elem_of_nil.
  - rewrite IH. split.
    + intros [Hm Hl]. apply lookup_insert_None in Hm as [Hm Hx].
      split; [done|]. intros c [->|Hc]%elem_of_cons; [done|by apply Hl].
    + intros [Hm Hl]. split.
      * apply lookup_insert_None. split; [done|]. apply Hl. by left.
      * intros c Hc. apply Hl. by right.
Qed.

Lemma lower_names_Some names k c :
  lower_names names !! k = Some c → c ∈ names ∧ Str.lower c = k.
Proof. by intros [?|?]%foldl_lower_Some. Qed.

Lemma lower_names_None names k :
  lower_names names !! k = None ↔ ∀ c, c ∈ names → Str.lower c ≠ k.
Proof.
  unfold lower_names. rewrite foldl_lower_None.
  split; [by intros [_ ?]|]. intros H. split; [done|exact H].
Qed.

Lemma has_header_lookup names n :
  existsb (fun c => String.eqb (Str.lower c) n) names =
  bool_decide (is_Some (lower_names names !! n)).
Proof.
  destruct (lower_names names !! n) as [c|] eqn:Hn.
  - apply lower_names_Some in Hn as [Hc Hlow].
    rewrite bool_decide_eq_true_2 by eauto.
    apply existsb_exists. exists c. split; [by apply list_elem_of_In|].
    by apply String.eqb_eq.
  - rewrite bool_decide_eq_false_2 by (by intros [? ?]).
    apply not_true_is_false. intros (c & Hc%list_elem_of_In & Heq%String.eqb_eq)%existsb_exists.
    by apply (proj1 (lower_names_None names n) Hn c).
Qed.

(** [pick] returns the column of the first synonym that names one. *)
Lemma pick_header_for names syns :
  pick (lower_names names) syns =
  match header_for names syns with
  | Some n => lower_names names !! n
  | None => None
  end.
Proof.
  unfold header_for. induction syns as [|n syns IH]; simpl; [done|].
  rewrite has_header_lookup.
  destruct (lower_names names !! n) as [c|] eqn:Hn.
  - by rewrite bool_decide_eq_true_2 by eauto.
  - by rewrite bool_decide_eq_false_2 by (by intros [? ?]).
Qed.

Lemma header_for_in names syns n : header_for names syns = Some n → n ∈ syns.
Proof.
  unfold header_for. intros [Hn _]%find_some. by apply list_elem_of_In.
Qed.

Lemma column_of_name df c :
  c ∈ csv_columns df → ∃ j, column df c = Ok j ∧ csv_columns df !! j = Some c.
Proof.
  intros Hc. unfold column.
  destruct (find_index (String.eqb c) (csv_columns df)) as [j|] eqn:Hfind.
  - apply find_index_Some in Hfind as (x & Hj & ->%String.eqb_eq). by exists j.
  - apply (find_index_None _ _ c) in Hfind; [|done].
    by rewrite String.eqb_refl in Hfind.
Qed.

Lemma lower_truthy c n : Str.lower c = n → n ≠ "" → Str.truthy c = true.
Proof. intros <- Hn. by destruct c. Qed.

(** What [df[c] if c else other] is for the column [pick] chose. *)
Lemma column_or_pick {A} df syns (read : nat → A) other :
  Forall (fun n => n ≠ "") syns →
  match header_for (csv_columns df) syns with
  | Some n =>
      ∃ i c, csv_columns df !! i = Some c ∧ Str.lower c = n ∧
        column_or df (pick (lower_names (csv_columns df)) syns) read other
          = Ok (read i)
  | None =>
      column_or df (pick (lower_names (csv_columns df)) syns) read other = other
  end.
Proof.
  intros Hsyns. rewrite pick_header_for.
  destruct (header_for (csv_columns df) syns) as [n|] eqn:Hn; [|done].
  assert (n ≠ "") as Hne.
  { apply header_for_in in Hn. by eapply Forall_forall in Hsyns. }
  unfold header_for in Hn. apply find_some in Hn as [_ Hn].
  rewrite has_header_lookup in Hn. apply bool_decide_eq_true in Hn as [c Hc].
  rewrite Hc. apply lower_names_Some in Hc as [Hin Hlow].
  destruct (column_of_name df c Hin) as (i & Hcol & Hi).
  exists i, c. split_and!; [done..|].
  unfold column_or. rewrite (lower_truthy c n Hlow Hne), Hcol. done.
Qed.

Lemma synonyms_not_empty :
  Forall (fun n => n ≠ "") player_synonyms ∧
  Forall (fun n => n ≠ "") team_synonyms ∧
  Forall (fun n => n ≠ "") pos_synonyms ∧
  Forall (fun n => n ≠ "") blend_synonyms.
Proof. repeat split; repeat constructor; done. Qed.

Lemma column_or_reads df syns :
  Forall (fun n => n ≠ "") syns →
  ∃ j, reads df syns j ∧
    column_or df (pick (lower_names (csv_columns df)) syns) Some (Ok None) = Ok j.
Proof.
  intros Hsyns.
  pose proof (column_or_pick df syns Some (Ok None) Hsyns) as H.
  unfold reads.
  destruct (header_for (csv_columns df) syns) as [n|].
  - destruct H as (i & c & Hi & Hlow & ->). exists (Some i). split; [|done].
    by exists i, c.
  - rewrite H. by exists None.
Qed.

(** [parse_csv], column by column. *)
Lemma parse_csv_columns to_numeric df :
  ∃ team pos blend,
    reads df team_synonyms team ∧ reads df pos_synonyms pos ∧
    reads df blend_synonyms blend ∧
    match header_for (csv_columns df) player_synonyms with
    | Some n =>
        ∃ player c, csv_columns df !! player = Some c ∧ Str.lower c = n ∧
          parse_csv to_numeric df =
            Ok (csv_roster to_numeric df player team pos blend)
    | None =>
        parse_csv to_numeric df =
          (player ← iloc0 df; Ok (csv_roster to_numeric df player team pos blend))
    end.
Proof.
  destruct synonyms_not_empty as (Hplayer & Hteam & Hpos & Hblend).
  destruct (column_or_reads df team_synonyms Hteam) as (team & Rteam & Eteam).
  destruct (column_or_reads df pos_synonyms Hpos) as (pos & Rpos & Epos).
  destruct (column_or_reads df blend_synonyms Hblend) as (blend & Rblend & Eblend).
  exists team, pos, blend. split_and!; [done..|].
  pose proof (column_or_pick df player_synonyms id (iloc0 df) Hplayer) as H.
  unfold parse_csv.
  change ["player"; "name"; "player_name"] with player_synonyms.
  change ["blend"; "adp"; "avg_draft_position"; "avgdraftposition"]
    with blend_synonyms.
  change ["team"; "tm"] with team_synonyms.
  change ["pos"; "position"] with pos_synonyms.
  cbv zeta. rewrite Eteam, Epos, Eblend.
  destruct (header_for (csv_columns df) player_synonyms) as [n|].
  - destruct H as (player & c & Hi & Hlow & ->). by exists player, c.
  - rewrite H. by destruct (iloc0 df).
Qed.

(** X9. [parse_csv] raises exactly on a frame without columns, where
    [df.iloc[:,0]] has nothing to read; on any other frame it returns: a
    column it looks up by name is a column of the frame. *)
Theorem parse_csv_raises_only_without_columns (to_numeric : string → spec_float)
    (df : csv_frame) :
  match csv_columns df with
  | [] => parse_csv to_numeric df = Raise IndexError
  | _ :: _ => ∃ roster, parse_csv to_numeric df = Ok roster
  end.
Proof.
  destruct (parse_csv_columns to_numeric df) as (team & pos & blend & _ & _ & _ & H).
  destruct (csv_columns df) as [|c0 names] eqn:Hnames.
  - assert (header_for [] player_synonyms = None) as Hnone by done.
    rewrite Hnone in H. rewrite H. unfold iloc0. by rewrite Hnames.
  - destruct (header_for (c0 :: names) player_synonyms).
    + destruct H as (player & c & _ & _ & ->). eauto.
    + rewrite H. unfold iloc0. rewrite Hnames. simpl. eauto.
Qed.

Lemma parse_csv_inv to_numeric df roster :
  parse_csv to_numeric df = Ok roster →
  ∃ player team pos blend,
    reads_player df player ∧ reads df team_synonyms team ∧
    reads df pos_synonyms pos ∧ reads df blend_synonyms blend ∧
    roster = csv_roster to_numeric df player team pos blend.
Proof.
  destruct (parse_csv_columns to_numeric df)
    as (team & pos & blend & Rteam & Rpos & Rblend & H).
  unfold reads_player.
  destruct (header_for (csv_columns df) player_synonyms) as [n|].
  - destruct H as (player & c & Hc & Hlow & ->). intros [= <-].
    exists player, team, pos, blend. split_and!; [by exists c|done..].
  - rewrite H. unfold iloc0.
    destruct (csv_columns df) eqn:Hnames; [done|]. simpl. intros [= <-].
    by exists 0, team, pos, blend.
Qed.

Lemma csv_roster_records to_numeric df player team pos blend :
  records (csv_roster to_numeric df player team pos blend) =
  ranked_in_order
    (head 300 (sort_values
       (map (csv_row_at to_numeric player team pos blend) (csv_rows df)))).
Proof.
  apply with_rank_sorted.
  eapply StronglySorted_sublist; [apply sublist_take|apply sort_values_Sorted].
Qed.

Lemma ranked_in_order_lookup l i r :
  l !! i = Some r → ∃ e : Entry, e ∈ ranked_in_order l ∧ row e = r.
Proof.
  intros Hi. unfold ranked_in_order. eexists (Build_Entry r _).
  split; [|done]. eapply elem_of_lookup_imap_2 in Hi. exact Hi.
Qed.

(** X10. The frame of [parse_csv] is read through four columns found by
    name, case apart: the player column is the one named by the first of
    player, name, player_name that names a column, else the first column;
    team, position and score are found the same way among their synonyms,
    and a column that is missing gives "" (team, position) or a null score.
    Every row of the frame is a row of the CSV read through these columns;
    a CSV of at most 300 rows has all of its rows in the frame. *)
Theorem parse_csv_reads_columns (to_numeric : string → spec_float)
    (df : csv_frame) (roster : DataFrame) :
  parse_csv to_numeric df = Ok roster →
  ∃ player team pos blend,
    reads_player df player ∧ reads df team_synonyms team ∧
    reads df pos_synonyms pos ∧ reads df blend_synonyms blend ∧
    (∀ e : Entry, e ∈ records roster →
       ∃ r, r ∈ csv_rows df ∧
            row e = csv_row_at to_numeric player team pos blend r) ∧
    (length (csv_rows df) ≤ 300 →
     ∀ r, r ∈ csv_rows df →
       ∃ e : Entry, e ∈ records roster ∧
            row e = csv_row_at to_numeric player team pos blend r).
Proof.
  intros (player & team & pos & blend & Rplayer & Rteam & Rpos & Rblend & ->)
    %parse_csv_inv.
  exists player, team, pos, blend. split_and!; [done..| |];
    rewrite csv_roster_records.
  - intros e He%elem_of_ranked_in_order.
    pose proof (elem_of_sublist _ _ _ He (sublist_take _ _)) as Hs.
    rewrite sort_values_Permutation in Hs.
    apply list_elem_of_fmap in Hs as (r & -> & Hr). by exists r.
  - intros Hlen r Hr. unfold head. rewrite take_ge.
    + assert (csv_row_at to_numeric player team pos blend r ∈
              sort_values (map (csv_row_at to_numeric player team pos blend)
                             (csv_rows df))) as Hin.
      { rewrite sort_values_Permutation. by apply list_elem_of_fmap_2. }
      apply list_elem_of_lookup in Hin as [i Hi].
      by apply (ranked_in_order_lookup _ i).
    + by rewrite sort_values_Permutation, length_map.
Qed.

Lemma parse_csv_reads_columns_witness :
  parse_csv decimal_cell names_only_csv = Ok names_only_roster ∧
  ∃ player team pos blend,
    reads_player names_only_csv player ∧
    reads names_only_csv team_synonyms team ∧
    reads names_only_csv pos_synonyms pos ∧
    reads names_only_csv blend_synonyms blend ∧
    (∀ e : Entry, e ∈ records names_only_roster →
       ∃ r, r ∈ csv_rows names_only_csv ∧
            row e = csv_row_at decimal_cell player team pos blend r) ∧
    (length (csv_rows names_only_csv) ≤ 300 →
     ∀ r, r ∈ csv_rows names_only_csv →
       ∃ e : Entry, e ∈ records names_only_roster ∧
            row e = csv_row_at decimal_cell player team pos blend r).
Proof.
  assert (parse_csv decimal_cell names_only_csv = Ok names_only_roster) as H
    by (vm_compute; reflexivity).
  split; [exact H|].
  exact (parse_csv_reads_columns decimal_cell names_only_csv names_only_roster H).
Defined.

(** X11. The frame of [parse_csv] has as many rows as the CSV, up to the
    cap: [min 300 n] rows for a CSV of [n] rows; no row is dropped or added
    below the cap, whatever the cells hold. *)
Theorem parse_csv_row_count (to_numeric : string → spec_float)
    (df : csv_frame) (roster : DataFrame) :
  parse_csv to_numeric df = Ok roster →
  length (records roster) = min 300 (length (csv_rows df)).
Proof.
  intros (player & team & pos & blend & _ & _ & _ & _ & ->)%parse_csv_inv.
  rewrite csv_roster_records. unfold ranked_in_order, head.
  by rewrite length_imap, length_take, sort_values_Permutation, length_map.
Qed.

Lemma parse_csv_row_count_witness :
  parse_csv decimal_cell example_csv = Ok example_csv_roster ∧
  length (records example_csv_roster) = min 300 (length (csv_rows example_csv)).
Proof.
  assert (parse_csv decimal_cell example_csv = Ok example_csv_roster) as H
    by (vm_compute; reflexivity).
  split; [exact H|].
  exact (parse_csv_row_count decimal_cell example_csv example_csv_roster H).
Defined.

(** X12. A CSV without a score column (no column named, case apart, blend,
    adp, avg_draft_position or avgdraftposition) gives a frame in which
    every score is null and every rank is <NA>; the rows whose players
    are names of two words or more beginning with a letter (cells pandas
    compares as strs) stand in the order of these names. *)
Theorem parse_csv_without_scores (to_numeric : string → spec_float)
    (df : csv_frame) (roster : DataFrame) :
  parse_csv to_numeric df = Ok roster →
  header_for (csv_columns df) blend_synonyms = None →
  (∀ e : Entry, e ∈ records roster →
     isnan (Blend e) = true ∧ ADP_Rank e = None) ∧
  (∀ i j (x y : Entry), i < j →
     records roster !! i = Some x → records roster !! j = Some y →
     full_name (Player x) = true → full_name (Player y) = true →
     String.leb (Player x) (Player y) = true).
Proof.
  intros Hparse Hnone.
  pose proof Hparse as (l & Hl & _ & _ & Hrecords)%parse_csv_roster.
  apply parse_csv_inv in Hparse
    as (player & team & pos & blend & _ & _ & _ & Rblend & ->).
  unfold reads in Rblend. rewrite Hnone in Rblend. subst blend.
  assert (∀ e : Entry, e ∈ records (csv_roster to_numeric df player team pos None) →
            isnan (Blend e) = true ∧ ADP_Rank e = None) as Hnull.
  { intros e He. rewrite csv_roster_records in He.
    assert (isnan (Blend e) = true) as Hnan.
    { apply elem_of_ranked_in_order in He.
      pose proof (elem_of_sublist _ _ _ He (sublist_take _ _)) as Hs.
      rewrite sort_values_Permutation in Hs.
      apply list_elem_of_fmap in Hs as (r & -> & _). done. }
    split; [done|]. unfold ranked_in_order in He.
    apply elem_of_lookup_imap_1 in He as (i & r & -> & _). simpl in *.
    by rewrite Hnan. }
  split; [done|]. intros i j x y Hij Hx Hy _ _.
  destruct (Hnull x (list_elem_of_lookup_2 _ _ _ Hx)) as [Hxnan _].
  destruct (Hnull y (list_elem_of_lookup_2 _ _ _ Hy)) as [Hynan _].
  rewrite Hrecords in Hx, Hy. unfold ranked_in_order in Hx, Hy.
  rewrite list_lookup_imap in Hx, Hy.
  destruct (l !! i) as [r|] eqn:Hi; [|done].
  destruct (l !! j) as [r'|] eqn:Hj; [|done].
  simpl in Hx, Hy. injection Hx as <-. injection Hy as <-. simpl in *.
  pose proof (StronglySorted_lookup before l i j r r' Hl Hij Hi Hj) as Hrr.
  apply before_spec in Hrr as [Hlt|[_ Hle]]; [|by apply Is_true_true].
  by destruct (Blend r), (Blend r').
Qed.

Lemma parse_csv_without_scores_witness :
  let x := {| row := {| Player := "Nikola Jokic"; Team := "DEN"; Pos := "";
                        Blend := S754_nan |};
              ADP_Rank := None |} in
  let y := {| row := {| Player := "Shai Gilgeous-Alexander"; Team := "OKC";
                        Pos := ""; Blend := S754_nan |};
              ADP_Rank := None |} in
  parse_csv decimal_cell names_only_csv = Ok names_only_roster ∧
  header_for (csv_columns names_only_csv) blend_synonyms = None ∧
  (∀ e : Entry, e ∈ records names_only_roster →
     isnan (Blend e) = true ∧ ADP_Rank e = None) ∧
  0 < 1 ∧ records names_only_roster !! 0 = Some x ∧
  records names_only_roster !! 1 = Some y ∧
  full_name (Player x) = true ∧ full_name (Player y) = true ∧
  String.leb (Player x) (Player y) = true.
Proof.
  intros x y.
  assert (parse_csv decimal_cell names_only_csv = Ok names_only_roster) as H
    by (vm_compute; reflexivity).
  assert (header_for (csv_columns names_only_csv) blend_synonyms = None)
    as Hnone by reflexivity.
  assert (0 < 1) as H01 by lia.
  assert (full_name (Player x) = true) as Hx by reflexivity.
  assert (full_name (Player y) = true) as Hy by reflexivity.
  destruct (parse_csv_without_scores decimal_cell names_only_csv
              names_only_roster H Hnone) as [Hnull Horder].
  repeat (split; [first [assumption|reflexivity]|]).
  exact (Horder 0 1 x y H01 eq_refl eq_refl Hx Hy).
Defined.

(** ** The two tables *)

(** X13. The Remaining and the Drafted rows split the roster: each keeps
    the roster's order, together they are all of its rows, each row once
    (lines 151-152). *)
Theorem remaining_drafted_split (df : list Entry) (drafted : DraftState) :
  remaining_df df drafted `sublist_of` df ∧
  drafted_df df drafted `sublist_of` df ∧
  df ≡ₚ remaining_df df drafted ++ drafted_df df drafted ∧
  length (remaining_df df drafted) + length (drafted_df df drafted) = length df.
Proof.
  unfold remaining_df, drafted_df.
  assert (df ≡ₚ filter (fun e : Entry => Player e ∉ drafted) df ++
                filter (fun e : Entry => Player e ∈ drafted) df) as Hperm.
  { induction df as [|e df IH]; [done|].
    destruct (decide (Player e ∈ drafted)) as [Hin|Hout].
    - rewrite (filter_cons_False (fun e : Entry => Player e ∉ drafted)) by auto.
      rewrite (filter_cons_True (fun e : Entry => Player e ∈ drafted)) by done.
      by rewrite <-Permutation_middle, <-IH.
    - rewrite (filter_cons_True (fun e : Entry => Player e ∉ drafted)) by done.
      rewrite (filter_cons_False (fun e : Entry => Player e ∈ drafted)) by done.
      simpl. by rewrite <-IH. }
  split_and!; [apply sublist_filter..|done|].
  by rewrite <-length_app, <-Hperm.
Qed.

(** X14. A move to Drafted takes out of Remaining exactly the rows whose
    player is selected, and Drafted gains exactly the rows of the roster
    whose player is selected (lines 151-152 after line 177). *)
Theorem move_to_drafted_moves_rows (df : list Entry) (drafted : DraftState)
    (X : list string) (e : Entry) :
  (e ∈ remaining_df df (move_to_drafted drafted X) ↔
   e ∈ remaining_df df drafted ∧ Player e ∉ X) ∧
  (e ∈ drafted_df df (move_to_drafted drafted X) ↔
   e ∈ drafted_df df drafted ∨ e ∈ df ∧ Player e ∈ X).
Proof.
  assert (move_to_drafted drafted X = drafted ∪ list_to_set X) as ->.
  { unfold move_to_drafted, update. case_bool_decide as HX; [|done].
    apply nil_length_inv in HX as ->. simpl. by rewrite (right_id_L ∅ (∪)). }
  unfold remaining_df, drafted_df. rewrite !list_elem_of_filter.
  rewrite elem_of_union, elem_of_list_to_set. split; [|tauto].
  split; [|tauto]. intros [Hout He]. split_and!; [|done|]; intros ?; apply Hout; auto.
Qed.

(** X15. After a reset every row of the roster is Remaining, in the
    roster's order, and none is Drafted (line 203, then lines 151-152). *)
Theorem reset_restores_roster (df : list Entry) (drafted : DraftState) :
  remaining_df df (reset drafted) = df ∧ drafted_df df (reset drafted) = [].
Proof.
  unfold remaining_df, drafted_df, reset. split.
  - induction df as [|e df IH]; [done|].
    rewrite filter_cons_True by apply not_elem_of_empty. by rewrite IH.
  - induction df as [|e df IH]; [done|].
    by rewrite filter_cons_False by apply not_elem_of_empty.
Qed.

(** ** The order of the two tables *)

Lemma sort_by_sorted {A} (le : A → A → bool) l :
  StronglySorted (fun x y => le x y = true) l → sort_by le l = l.
Proof.
  induction 1 as [|x l Hl IH Hx]; simpl; [done|].
  rewrite IH. destruct Hx as [|y l Hy _]; simpl; [done|]. by rewrite Hy.
Qed.

Lemma insert_by_Permutation {A} (le : A → A → bool) x l :
  insert_by le x l ≡ₚ x :: l.
Proof.
  induction l as [|y l IH]; simpl; [done|].
  destruct (le x y); [done|]. by rewrite IH, Permutation_swap.
Qed.

Lemma sort_by_Permutation {A} (le : A → A → bool) l : sort_by le l ≡ₚ l.
Proof.
  induction l as [|x l IH]; simpl; [done|].
  by rewrite insert_by_Permutation, IH.
Qed.

Lemma StronglySorted_from_lookup {A} (R : relation A) l :
  (∀ i j x y, i < j → l !! i = Some x → l !! j = Some y → R x y) →
  StronglySorted R l.
Proof.
  induction l as [|z l IH]; intros H; constructor.
  - apply IH. intros i j x y Hij Hi Hj. apply (H (S i) (S j)); [lia|done..].
  - apply Forall_forall. intros y [j Hj]%list_elem_of_lookup.
    apply (H 0 (S j)); [lia|done..].
Qed.

Lemma ranked_in_order_blend_sorted l :
  StronglySorted before l →
  StronglySorted (fun x y : Entry => entry_blend_le x y = true)
    (ranked_in_order l).
Proof.
  intros Hl. apply StronglySorted_from_lookup. intros i j x y Hij.
  unfold ranked_in_order. rewrite !list_lookup_imap.
  destruct (l !! i) as [r|] eqn:Hi; [|done].
  destruct (l !! j) as [r'|] eqn:Hj; [|done].
  simpl. intros [= <-] [= <-]. unfold entry_blend_le. simpl.
  apply (StronglySorted_lookup before l i j r r' Hl Hij Hi Hj).
Qed.

Lemma ranked_in_order_rank_sorted l :
  StronglySorted before l →
  StronglySorted (fun x y : Entry => entry_rank_le x y = true)
    (ranked_in_order l).
Proof.
  intros Hl. apply StronglySorted_from_lookup. intros i j x y Hij.
  unfold ranked_in_order. rewrite !list_lookup_imap.
  destruct (l !! i) as [r|] eqn:Hi; [|done].
  destruct (l !! j) as [r'|] eqn:Hj; [|done].
  simpl. intros [= <-] [= <-]. unfold entry_rank_le. simpl.
  pose proof (StronglySorted_lookup before l i j r r' Hl Hij Hi Hj) as Hrr.
  destruct (isnan (Blend r)) eqn:Hr, (isnan (Blend r')) eqn:Hr'; simpl.
  - apply before_spec in Hrr as [Hlt|[_ Hle]]; [|by apply Is_true_true].
    by destruct (Blend r), (Blend r').
  - apply before_blend_le in Hrr.
    by rewrite (blend_le_not_nan _ _ Hrr Hr') in Hr.
  - done.
  - assert ((Z.of_nat (i + 1) ?= Z.of_nat (j + 1))%Z = Lt) as ->; [|done].
    apply Z.compare_lt_iff. lia.
Qed.

(** X16. On a frame returned by either ingestion path the two sorts of
    the board change nothing: the Remaining table (sorted by Blend, then
    Player, line 156) and the Drafted table (sorted by ADP_Rank, then
    Player, line 182) list their rows in the order of the roster. *)
Theorem tables_in_roster_order pdfplumber pdf_bytes to_numeric csv
    (df : DataFrame) (drafted : DraftState) :
  parse_pdf_cached pdfplumber pdf_bytes = Ok df ∨
  parse_csv to_numeric csv = Ok df →
  remaining_table (records df) drafted = remaining_df (records df) drafted ∧
  drafted_table (records df) drafted = drafted_df (records df) drafted.
Proof.
  intros H.
  assert (ingested df) as (l & Hl & _ & _ & ->)%ingested_roster.
  { destruct H; [left|right]; eauto. }
  unfold remaining_table, drafted_table, remaining_df, drafted_df.
  split; apply sort_by_sorted.
  - eapply StronglySorted_sublist;
      [apply sublist_filter|by apply ranked_in_order_blend_sorted].
  - eapply StronglySorted_sublist;
      [apply sublist_filter|by apply ranked_in_order_rank_sorted].
Qed.

Lemma tables_in_roster_order_witness :
  let drafted : DraftState := {["Joel Embiid"]} in
  (parse_pdf_cached (Some example_pdfplumber) [] = Ok example_roster ∧
   remaining_table (records example_roster) drafted =
     remaining_df (records example_roster) drafted ∧
   drafted_table (records example_roster) drafted =
     drafted_df (records example_roster) drafted) ∧
  (parse_csv decimal_cell example_csv = Ok example_csv_roster ∧
   remaining_table (records example_csv_roster) drafted =
     remaining_df (records example_csv_roster) drafted ∧
   drafted_table (records example_csv_roster) drafted =
     drafted_df (records example_csv_roster) drafted).
Proof.
  intros drafted.
  assert (parse_pdf_cached (Some example_pdfplumber) [] = Ok example_roster)
    as Hpdf by (vm_compute; reflexivity).
  assert (parse_csv decimal_cell example_csv = Ok example_csv_roster)
    as Hcsv by (vm_compute; reflexivity).
  split; (split; [assumption|]).
  - exact (tables_in_roster_order (Some example_pdfplumber) [] decimal_cell
             example_csv example_roster drafted (or_introl Hpdf)).
  - exact (tables_in_roster_order None [] decimal_cell example_csv
             example_csv_roster drafted (or_intror Hcsv)).
Defined.

(** ** The editor and the Move button *)

Lemma check_boxes_lookup flags table i b e :
  flags !! i = Some b → table !! i = Some e →
  check_boxes flags table !! i = Some {| Draft := b; shown := e |}.
Proof.
  intros Hb He. unfold check_boxes. by rewrite lookup_zip_with, Hb, He.
Qed.

Lemma elem_of_to_draft edited p :
  p ∈ to_draft edited ↔
  ∃ r : editor_row, r ∈ edited ∧ Draft r = true ∧ Player r = p.
Proof.
  unfold to_draft. rewrite list_elem_of_fmap. split.
  - intros (r & -> & [Hd Hr]%list_elem_of_filter). by exists r.
  - intros (r & Hr & Hd & <-). exists r. split; [done|].
    by apply list_elem_of_filter.
Qed.

(** X17. With no player listed twice in the roster, checking boxes in the
    editor and pressing Move leaves in Remaining exactly the rows whose box
    was left unchecked. *)
Theorem move_checked_rows (df : list Entry) (drafted : DraftState)
    (flags : list bool) (e : Entry) :
  NoDup (map (fun e : Entry => Player e) df) →
  length flags = length (remaining_table df drafted) →
  let edited := check_boxes flags (remaining_table df drafted) in
  e ∈ remaining_df df (move_to_drafted drafted (to_draft edited)) ↔
  {| Draft := false; shown := e |} ∈ edited.
Proof.
  intros Hnodup Hlen edited.
  assert (move_to_drafted drafted (to_draft edited) =
          drafted ∪ list_to_set (to_draft edited)) as ->.
  { unfold move_to_drafted, update. case_bool_decide as HX; [|done].
    apply nil_length_inv in HX as ->. simpl. by rewrite (right_id_L ∅ (∪)). }
  set (table := remaining_table df drafted) in *.
  assert (NoDup (map (fun e : Entry => Player e) table)) as Htable.
  { unfold table, remaining_table. rewrite sort_by_Permutation.
    eapply sublist_NoDup; [exact Hnodup|].
    apply (fmap_sublist (fun e : Entry => Player e)), sublist_filter. }
  assert (∀ x, x ∈ table ↔ x ∈ remaining_df df drafted) as Hmem.
  { intros x. unfold table, remaining_table. by rewrite sort_by_Permutation. }
  assert (∀ x : Entry, x ∈ remaining_df df (drafted ∪ list_to_set (to_draft edited))
            ↔ x ∈ table ∧ Player x ∉ to_draft edited) as Hafter.
  { intros x. rewrite Hmem. unfold remaining_df. rewrite !list_elem_of_filter.
    rewrite elem_of_union, elem_of_list_to_set. tauto. }
  rewrite Hafter. split.
  - intros [[i Hi]%list_elem_of_lookup Hout].
    destruct (flags !! i) as [b|] eqn:Hb.
    + pose proof (check_boxes_lookup flags table i b e Hb Hi) as Hrow.
      destruct b.
      * exfalso. apply Hout. apply elem_of_to_draft.
        eexists. split; [by eapply list_elem_of_lookup_2|done].
      * by eapply list_elem_of_lookup_2.
    + apply lookup_ge_None in Hb. apply lookup_lt_Some in Hi. lia.
  - intros [i Hi]%list_elem_of_lookup. unfold edited, check_boxes in Hi.
    apply lookup_zip_with_Some in Hi as (b & x & Heq & Hb & Hx).
    injection Heq as <- <-. split; [by eapply list_elem_of_lookup_2|].
    intros (r & [j Hj]%list_elem_of_lookup & Hd & Hp)%elem_of_to_draft.
    unfold edited, check_boxes in Hj.
    apply lookup_zip_with_Some in Hj as (b' & x' & -> & Hb' & Hx').
    simpl in Hd, Hp. subst b'.
    assert (j = i) as ->.
    { eapply NoDup_lookup; [exact Htable| |].
      - by rewrite list_lookup_fmap, Hx'.
      - rewrite list_lookup_fmap, Hx. simpl. by rewrite Hp. }
    congruence.
Qed.

Lemma move_checked_rows_witness :
  let df := records example_roster in
  let drafted : DraftState := {["Joel Embiid"]} in
  let flags := [true; false] in
  let e := {| row := edey; ADP_Rank := None |} in
  let edited := check_boxes flags (remaining_table df drafted) in
  NoDup (map (fun e : Entry => Player e) df) ∧
  length flags = length (remaining_table df drafted) ∧
  (e ∈ remaining_df df (move_to_drafted drafted (to_draft edited)) ↔
   {| Draft := false; shown := e |} ∈ edited).
Proof.
  intros df drafted flags e edited.
  assert (NoDup (map (fun e : Entry => Player e) df)) as Hnodup.
  { repeat (apply NoDup_cons; split;
            [intros Hin; repeat (apply elem_of_cons in Hin as [Hin|Hin];
               [discriminate Hin|]); by apply elem_of_nil in Hin|]).
    apply NoDup_nil_2. }
  assert (length flags = length (remaining_table df drafted)) as Hlen
    by (vm_compute; reflexivity).
  split; [exact Hnodup|]. split; [exact Hlen|].
  exact (move_checked_rows df drafted flags e Hnodup Hlen).
Defined.

(** ** Runs of the script *)

Lemma upload_loaded pdfplumber to_numeric pdf csv s df :
  players_df s = Some df → upload pdfplumber to_numeric pdf csv s = Ok s.
Proof. intros Hdf. unfold upload. rewrite Hdf. by destruct pdf, csv. Qed.

(** X18. Once a frame is in the session no run of the script parses
    again, replaces it or raises, whatever is in the uploaders; and while
    the loaded frame is empty a run changes nothing at all, so after a PDF
    that gave no rows a CSV put in the uploader is never read (lines
    140-147). *)
Theorem run_keeps_loaded_frame (pdfplumber : option pdfplumber_module)
    (to_numeric : string → spec_float) (w : widgets) (s : session_state)
    (df : DataFrame) :
  players_df s = Some df →
  ∃ s', run pdfplumber to_numeric w s = Ok s' ∧ players_df s' = Some df ∧
        (length (records df) = 0 → s' = s).
Proof.
  intros Hdf. unfold run. rewrite (upload_loaded _ _ _ _ s df Hdf).
  cbn [mbind result_bind]. unfold awaiting_upload. rewrite Hdf.
  destruct (length (records df) =? 0) eqn:Hlen.
  - by exists s.
  - apply Nat.eqb_neq in Hlen.
    destruct (move_clicked w && _); [|destruct (reset_clicked w)];
      eexists; (split; [reflexivity|]); (split; [done|]); intros; lia.
Qed.

Lemma run_keeps_loaded_frame_witness :
  players_df example_session = Some example_roster ∧
  ∃ s', run None decimal_cell example_widgets example_session = Ok s' ∧
        players_df s' = Some example_roster ∧
        (length (records example_roster) = 0 → s' = example_session).
Proof.
  assert (players_df example_session = Some example_roster) as H by reflexivity.
  split; [exact H|].
  exact (run_keeps_loaded_frame None decimal_cell example_widgets
           example_session example_roster H).
Defined.

(** X19. The drafted names stay names of the roster: when they are so
    before a run, and the rows checked in the editor carry players of the
    roster, they are so after the run (lines 175-178, 203). *)
Theorem run_drafted_within_roster (pdfplumber : option pdfplumber_module)
    (to_numeric : string → spec_float) (w : widgets) (s s' : session_state)
    (df : DataFrame) :
  players_df s = Some df →
  drafted_names s ⊆ names (records df) →
  (∀ r : editor_row, r ∈ edited w → Draft r = true →
     Player r ∈ names (records df)) →
  run pdfplumber to_numeric w s = Ok s' →
  drafted_names s' ⊆ names (records df).
Proof.
  intros Hdf Hsub Hedited. unfold run.
  rewrite (upload_loaded _ _ _ _ s df Hdf). cbn [mbind result_bind].
  destruct (awaiting_upload s); [by intros [= <-]|].
  destruct (move_clicked w && _).
  - intros [= <-]. cbn [drafted_names]. unfold update.
    apply union_subseteq. split; [done|].
    intros p Hp%elem_of_list_to_set.
    apply elem_of_to_draft in Hp as (r & Hr & Hd & <-). by apply Hedited.
  - destruct (reset_clicked w); intros [= <-]; [|done].
    cbn [drafted_names]. unfold reset. apply empty_subseteq.
Qed.

Lemma run_drafted_within_roster_witness :
  let s' := {| players_df := Some example_roster;
               drafted_names := {["Joel Embiid"]} ∪ {["Nikola Jokic"]} ∪ ∅ |} in
  players_df example_session = Some example_roster ∧
  drafted_names example_session ⊆ names (records example_roster) ∧
  (∀ r : editor_row, r ∈ edited example_widgets → Draft r = true →
     Player r ∈ names (records example_roster)) ∧
  run None decimal_cell example_widgets example_session = Ok s' ∧
  drafted_names s' ⊆ names (records example_roster).
Proof.
  intros s'.
  assert (players_df example_session = Some example_roster) as Hdf
    by reflexivity.
  assert (drafted_names example_session ⊆ names (records example_roster))
    as Hsub.
  { cbn [drafted_names example_session]. intros p Hp%elem_of_singleton.
    subst p. unfold names. simpl.
    apply elem_of_union. right. apply elem_of_union. left.
    by apply elem_of_singleton. }
  assert (∀ r : editor_row, r ∈ edited example_widgets → Draft r = true →
            Player r ∈ names (records example_roster)) as Hedited.
  { intros r Hr Hd. vm_compute in Hr.
    apply elem_of_cons in Hr as [->|Hr].
    - unfold names. simpl. apply elem_of_union. left. by apply elem_of_singleton.
    - apply elem_of_cons in Hr as [->|Hr]; [discriminate Hd|].
      by apply elem_of_nil in Hr. }
  assert (run None decimal_cell example_widgets example_session = Ok s') as Hrun.
  { vm_compute. reflexivity. }
  split; [exact Hdf|]. split; [exact Hsub|]. split; [exact Hedited|].
  split; [exact Hrun|].
  exact (run_drafted_within_roster None decimal_cell example_widgets
           example_session s' example_roster Hdf Hsub Hedited Hrun).
Defined.

(** ** Ties: the record extracted first wins *)

Lemma string_compare_refl s : String.compare s s = Eq.
Proof.
  induction s as [|a s IH]; simpl; [done|].
  unfold Ascii.compare. by rewrite N.compare_refl.
Qed.

Lemma row_compare_Eq x y :
  row_compare x y = Eq ↔
  blend_compare (Blend x) (Blend y) = Eq ∧ Player x = Player y.
Proof.
  unfold row_compare. destruct (blend_compare _ _) eqn:E.
  - split; [by intros ?%String.compare_eq_iff|].
    intros [_ ->]. apply string_compare_refl.
  - split; [done|by intros [? _]].
  - split; [done|by intros [? _]].
Qed.

Lemma tied_row_le x y : tied x y → row_le x y = true.
Proof. unfold tied, row_le. by intros ->. Qed.

Lemma tied_trans_r x y z : tied x z → tied y z → tied x y.
Proof.
  unfold tied. rewrite !row_compare_Eq. intros [Hx ->] [Hy ->]. split; [|done].
  rewrite (blend_compare_Eq_l _ _ _ Hx). by apply blend_compare_Eq_sym.
Qed.

Lemma insert_row_tied z x l :
  filter (fun y => tied y z) (insert_row x l) =
  filter (fun y => tied y z) (x :: l).
Proof.
  induction l as [|y l IH]; simpl; [done|].
  destruct (row_le x y) eqn:Hle; [done|].
  destruct (decide (tied x z)) as [Hx|Hx].
  - assert (¬ tied y z) as Hy.
    { intros Hy. pose proof (tied_row_le x y (tied_trans_r x y z Hx Hy)).
      congruence. }
    rewrite (filter_cons_False _ y) by done. rewrite IH.
    rewrite !(filter_cons_True _ x) by done.
    by rewrite (filter_cons_False _ y) by done.
  - destruct (decide (tied y z)) as [Hy|Hy].
    + rewrite (filter_cons_True _ y) by done. rewrite IH.
      rewrite !(filter_cons_False _ x) by done.
      by rewrite (filter_cons_True _ y) by done.
    + rewrite (filter_cons_False _ y) by done. rewrite IH.
      rewrite !(filter_cons_False _ x) by done.
      by rewrite (filter_cons_False _ y) by done.
Qed.

(** The sort is stable: rows that tie keep their order. *)
Lemma sort_values_stable z l :
  filter (fun y => tied y z) (sort_values l) = filter (fun y => tied y z) l.
Proof.
  induction l as [|x l IH]; simpl; [done|].
  rewrite insert_row_tied.
  destruct (decide (tied x z)).
  - rewrite !(filter_cons_True _ x) by done. by rewrite IH.
  - rewrite !(filter_cons_False _ x) by done. by rewrite IH.
Qed.

Lemma drop_duplicates_from_split seen l e :
  e ∈ drop_duplicates_from seen l →
  ∃ pre post, l = pre ++ e :: post ∧ ∀ y, y ∈ pre → Player y ≠ Player e.
Proof.
  revert seen. induction l as [|x l IH]; intros seen; simpl;
    [by intros ?%elem_of_nil|].
  case_decide as Hseen.
  - intros He. pose proof (drop_duplicates_from_fresh _ _ _ He) as Hfresh.
    destruct (IH seen He) as (pre & post & -> & Hpre).
    exists (x :: pre), post. split; [done|].
    intros y [->|Hy]%elem_of_cons; [congruence|by apply Hpre].
  - intros [->|He]%elem_of_cons.
    + exists [], l. split; [done|]. by intros y ?%elem_of_nil.
    + pose proof (drop_duplicates_from_fresh _ _ _ He) as Hfresh.
      destruct (IH _ He) as (pre & post & -> & Hpre).
      exists (x :: pre), post. split; [done|].
      intros y [->|Hy]%elem_of_cons; [|by apply Hpre].
      intros Heq. apply Hfresh. rewrite <-Heq. apply elem_of_union. left.
      by apply elem_of_singleton.
Qed.

(** X20. Of the records that tie (the same player and the same score), the
    frame keeps the one extracted first: the sort is stable and the later
    rows of a name are dropped.  So when a table row and a text line of one
    page give a player the same score, the row of the frame is the table's. *)
Theorem consolidate_keeps_first_of_tie (rows : list RawRecord) (e : Entry) :
  e ∈ records (consolidate rows) →
  filter (fun r => tied r e) (map row_of_raw rows) !! 0 = Some (row e).
Proof.
  rewrite consolidate_records. intros He%elem_of_ranked_in_order.
  unfold pdf_frame, head in He.
  pose proof (elem_of_sublist _ _ _ He (sublist_take _ _)) as Hd.
  apply drop_duplicates_from_split in Hd as (pre & post & Hsplit & Hpre).
  rewrite <-(sort_values_stable e), Hsplit, filter_app.
  replace (filter (fun r => tied r e) pre) with (@nil Row).
  - rewrite filter_cons_True; [done|].
    unfold tied. apply row_compare_Eq. split; [apply blend_compare_refl|done].
  - symmetry. clear Hsplit. induction pre as [|y pre IH]; [done|].
    rewrite filter_cons_False.
    + apply IH. intros z Hz. apply Hpre. by right.
    + intros [_ Hname]%row_compare_Eq. apply (Hpre y); [by left|done].
Qed.

Lemma consolidate_keeps_first_of_tie_witness :
  let rows := [shai "OKC" "PG" (dyadic 3 0); shai "" "" (dyadic 3 0)] in
  let e := {| row := {| Player := "Shai Gilgeous-Alexander"; Team := "OKC";
                        Pos := "PG"; Blend := dyadic 3 0 |};
              ADP_Rank := Some 1%Z |} in
  e ∈ records (consolidate rows) ∧
  filter (fun r => tied r e) (map row_of_raw rows) !! 0 = Some (row e).
Proof.
  intros rows e.
  assert (e ∈ records (consolidate rows)) as He
    by (vm_compute; apply list_elem_of_here).
  split; [exact He|]. exact (consolidate_keeps_first_of_tie rows e He).
Defined.

(** ** Lines of document chrome *)

Module ReComplete.
Import Re ReSem.

Lemma star_fallback p k bef aft g :
  is_Some (k {| before := bef; after := aft; groups := g |}) →
  is_Some (star p k bef aft g).
Proof.
  intros Hk. destruct aft as [|c aft]; simpl; [done|].
  destruct (p c); [|done]. by destruct (star p k (c :: bef) aft g).
Qed.

Lemma star_complete p k bef w aft g :
  Forall (fun x => p x = true) w →
  is_Some (k {| before := rev w ++ bef; after := aft; groups := g |}) →
  is_Some (star p k bef (w ++ aft) g).
Proof.
  intros Hw. revert bef. induction Hw as [|x w Hx _ IH]; intros bef Hk.
  - by apply star_fallback.
  - simpl. rewrite Hx.
    destruct (star p k (x :: bef) (w ++ aft) g) eqn:Hstar; [done|].
    destruct (IH (x :: bef)) as [st Hst].
    + simpl in Hk. by rewrite <-app_assoc in Hk.
    + congruence.
Qed.

(** The matcher finds a match whenever a word the pattern accepts lies
    ahead and the continuation takes it. *)
Lemma run_complete ignorecase r k st w aft :
  accepts ignorecase r w → after st = w ++ aft →
  (∀ g, is_Some (k {| before := rev w ++ before st; after := aft; groups := g |})) →
  is_Some (run ignorecase r k st).
Proof.
  revert k st w aft.
  induction r as [|c|p|r1 IH1 r2 IH2|r1 IH1 r2 IH2|p|n r IH| | |];
    intros k st w aft; simpl; try done.
  - intros -> Haft Hk. specialize (Hk (groups st)). simpl in *.
    rewrite <-Haft in Hk. by destruct st.
  - intros (x & -> & Hx) Haft Hk. simpl in *. rewrite Haft, Hx. apply Hk.
  - intros (x & -> & Hx) Haft Hk. simpl in *. rewrite Haft, Hx. apply Hk.
  - intros (w1 & w2 & -> & Hw1 & Hw2) Haft Hk.
    apply (IH1 _ _ w1 (w2 ++ aft)); [done|by rewrite Haft, app_assoc|].
    intros g. apply (IH2 _ _ w2 aft); [done..|]. intros g'. simpl.
    specialize (Hk g'). by rewrite rev_app_distr, <-app_assoc in Hk.
  - intros [Hw|Hw] Haft Hk.
    + destruct (IH1 k st w aft Hw Haft Hk) as [st' ->]. done.
    + destruct (run ignorecase r1 k st); [done|]. by apply (IH2 k st w aft).
  - intros Hw Haft Hk. rewrite Haft. apply star_complete; [done|]. apply Hk.
  - intros Hw Haft Hk. apply (IH _ _ w aft); [done..|]. intros g. apply Hk.
Qed.

Lemma search_from_complete ignorecase r bef pre aft :
  is_Some (run ignorecase r Some (start_state (rev pre ++ bef) aft)) →
  is_Some (search_from ignorecase r bef (pre ++ aft)).
Proof.
  revert bef. induction pre as [|c pre IH]; intros bef; simpl.
  - intros [st Hst]. destruct aft; simpl; rewrite Hst; eauto.
  - intros Hrun.
    destruct (run ignorecase r Some (start_state bef _)); [by eauto|].
    apply IH. by rewrite <-app_assoc in Hrun.
Qed.

(** [search] finds a match in a text that holds an accepted word. *)
Lemma search_complete ignorecase r s pre w post :
  Str.chars s = pre ++ w ++ post → accepts ignorecase r w →
  is_Some (search ignorecase r s).
Proof.
  intros Hs Hw. unfold search. rewrite Hs.
  apply search_from_complete.
  by apply (run_complete ignorecase r Some _ w post).
Qed.

Lemma accepts_lit_chars l w :
  map Str.lower_char w = map Str.lower_char l →
  accepts true (lit_chars l) w.
Proof.
  revert w. induction l as [|c l IH]; intros w Hw.
  - by destruct w.
  - destruct w as [|x w]; [done|]. injection Hw as Hx Hw.
    assert (char_eq true c x = true) as Hc.
    { unfold char_eq. rewrite Hx. apply Nat.eqb_refl. }
    destruct l as [|c' l].
    + destruct w; [|done]. by exists x.
    + exists [x], w. split; [done|]. split; [by exists x|by apply IH].
Qed.

End ReComplete.

Lemma chrome_phrase_accepted phrase w :
  phrase ∈ ["ADP Data"; "Hashtag Basketball"; "Season"; "Updated"] →
  map Str.lower_char w = map Str.lower_char (Str.chars phrase) →
  ReSem.accepts true Pat.chrome w.
Proof.
  intros Hphrase Hw. right.
  repeat (apply elem_of_cons in Hphrase as [->|Hphrase];
          [by repeat first [left; by apply ReComplete.accepts_lit_chars | right]|]).
  by apply elem_of_nil in Hphrase.
Qed.

Lemma chrome_link_accepted w c :
  map Str.lower_char w = Str.chars "http://" ∨
  map Str.lower_char w = Str.chars "https://" →
  Str.isspace c = false →
  ReSem.accepts true Pat.chrome (w ++ [c]).
Proof.
  intros Hw Hc. left.
  assert (ReSem.accepts true (Re.Plus (fun c => negb (Str.isspace c))) [c]) as Hplus.
  { exists [c], []. split; [done|]. split; [|constructor].
    exists c. split; [done|]. by rewrite Hc. }
  rewrite <-(take_drop 4 w), <-app_assoc.
  exists (take 4 w), (drop 4 w ++ [c]). split; [done|]. split.
  { apply (ReComplete.accepts_lit_chars (Str.chars "http")).
    change (map ?f ?l) with (f <$> l). rewrite fmap_take.
    change (Str.lower_char <$> w) with (map Str.lower_char w).
    by destruct Hw as [-> | ->]. }
  destruct Hw as [Hw|Hw].
  - exists [], (drop 4 w ++ [c]). split; [done|]. split; [by right|].
    exists (drop 4 w), [c]. split; [done|]. split; [|done].
    apply (ReComplete.accepts_lit_chars (Str.chars "://")).
    change (map ?f ?l) with (f <$> l). rewrite fmap_drop.
    change (Str.lower_char <$> w) with (map Str.lower_char w). by rewrite Hw.
  - rewrite <-(take_drop 1 (drop 4 w)), <-app_assoc.
    exists (take 1 (drop 4 w)), (drop 1 (drop 4 w) ++ [c]).
    split; [done|]. split.
    { left. apply (ReComplete.accepts_lit_chars [ascii_of_nat 115]).
      change (map ?f ?l) with (f <$> l). rewrite fmap_take, fmap_drop.
      change (Str.lower_char <$> w) with (map Str.lower_char w). by rewrite Hw. }
    exists (drop 1 (drop 4 w)), [c]. split; [done|]. split; [|done].
    apply (ReComplete.accepts_lit_chars (Str.chars "://")).
    change (map ?f ?l) with (f <$> l). rewrite !fmap_drop.
    change (Str.lower_char <$> w) with (map Str.lower_char w). by rewrite Hw.
Qed.

(** X21. A text line that holds a link (http:// or https:// and a
    character after it), or one of the phrases ADP Data, Hashtag Basketball,
    Season, Updated, in any casing and anywhere in the line, gives no
    record, whatever else the line holds (line 65). *)
Theorem text_line_drops_chrome (raw : string) :
  holds_link (_clean (Some raw)) ∨
  (∃ phrase, phrase ∈ ["ADP Data"; "Hashtag Basketball"; "Season"; "Updated"] ∧
             says (_clean (Some raw)) phrase) →
  text_line raw = Ok None.
Proof.
  intros H. unfold text_line. destruct (negb _); [done|].
  rewrite bool_decide_eq_true_2; [done|].
  destruct H as [(pre & w & c & post & Hline & Hw & Hc)|
                 (phrase & Hphrase & pre & w & post & Hline & Hw)].
  - apply (ReComplete.search_complete true Pat.chrome _ pre (w ++ [c]) post).
    + by rewrite Hline, <-(app_assoc w).
    + by apply chrome_link_accepted.
  - apply (ReComplete.search_complete true Pat.chrome _ pre w post); [done|].
    by eapply chrome_phrase_accepted.
Qed.

Lemma text_line_drops_chrome_witness :
  let raw := "12. Season Smith (PG) DAL 4.0" in
  (holds_link (_clean (Some raw)) ∨
   (∃ phrase, phrase ∈ ["ADP Data"; "Hashtag Basketball"; "Season"; "Updated"] ∧
              says (_clean (Some raw)) phrase)) ∧
  text_line raw = Ok None.
Proof.
  intros raw.
  assert (holds_link (_clean (Some raw)) ∨
          (∃ phrase,
             phrase ∈ ["ADP Data"; "Hashtag Basketball"; "Season"; "Updated"] ∧
             says (_clean (Some raw)) phrase)) as H.
  { right. exists "Season". split.
    - do 2 apply list_elem_of_further. apply list_elem_of_here.
    - exists (Str.chars "12. "), (Str.chars "Season"),
        (Str.chars " Smith (PG) DAL 4.0"). split; reflexivity. }
  split; [exact H|]. exact (text_line_drops_chrome raw H).
Defined.

(** ** The text normaliser *)

Lemma norm_word_space c l :
  Str.isspace c = true → norm_word (c :: l) = norm_gap l.
Proof.
  intros Hc. simpl. rewrite Hc.
  induction l as [|d l IH]; simpl; [done|]. by destruct (Str.isspace d).
Qed.

Lemma norm_word_char c l :
  Str.isspace c = false → norm_word (c :: l) = c :: norm_word l.
Proof. intros Hc. simpl. by rewrite Hc. Qed.

Lemma norm_gap_start l :
  norm_gap l = match norm_start l with
               | [] => []
               | r => ascii_of_nat 32 :: r
               end.
Proof.
  induction l as [|c l IH]; simpl; [done|]. by destruct (Str.isspace c).
Qed.

Lemma of_chars_app a b :
  Str.of_chars (a ++ b) = (Str.of_chars a ++ Str.of_chars b)%string.
Proof.
  unfold Str.of_chars. induction a as [|c a IH]; simpl; [done|]. by rewrite IH.
Qed.

Lemma join_of_chars ts :
  Str.join " " (map Str.of_chars ts) = Str.of_chars (join_chars ts).
Proof.
  unfold Str.join. induction ts as [|t ts IH]; [done|].
  destruct ts as [|t' ts]; [done|].
  change (String.concat " " (map Str.of_chars (t :: t' :: ts)))
    with (Str.of_chars t ++ " " ++
          String.concat " " (map Str.of_chars (t' :: ts)))%string.
  rewrite IH. change (join_chars (t :: t' :: ts))
    with (t ++ ascii_of_nat 32 :: join_chars (t' :: ts)).
  by rewrite of_chars_app.
Qed.

Lemma lstrip_chars_length l : length (Str.lstrip_chars l) ≤ length l.
Proof.
  induction l as [|c l IH]; simpl; [done|].
  destruct (Str.isspace c); simpl; lia.
Qed.

Lemma star_spaces bef aft g :
  ∃ w, Re.star Str.isspace Some bef aft g =
       Some {| Re.before := rev w ++ bef; Re.after := Str.lstrip_chars aft;
               Re.groups := g |}.
Proof.
  revert bef. induction aft as [|c aft IH]; intros bef; simpl.
  - by exists [].
  - destruct (Str.isspace c) eqn:Hc; [|by exists []].
    destruct (IH (c :: bef)) as [w ->]. exists (c :: w). simpl.
    by rewrite <-app_assoc.
Qed.

Lemma squeeze_true l : squeeze true l = squeeze false (Str.lstrip_chars l).
Proof.
  induction l as [|c l IH]; simpl; [done|].
  destruct (Str.isspace c) eqn:Hc; [done|]. simpl. by rewrite Hc.
Qed.

(** [re.sub(r"\s+", " ", s)] squeezes the white space. *)
Lemma sub_spaces fuel bef aft :
  length aft < fuel →
  Re.sub_from fuel false Pat.spaces [ascii_of_nat 32] bef aft = squeeze false aft.
Proof.
  revert bef aft. induction fuel as [|fuel IH]; intros bef aft Hlen; [lia|].
  destruct aft as [|c aft]; [done|]. simpl in Hlen.
  cbn [Re.sub_from Re.run Pat.spaces Re.Plus Re.start_state Re.after Re.before
       Re.groups].
  destruct (Str.isspace c) eqn:Hc.
  - destruct (star_spaces (c :: bef) aft []) as [w ->].
    cbn [Re.before Re.after]. rewrite length_app, length_rev. simpl.
    replace (length w + S (length bef) =? length bef) with false
      by (symmetry; apply Nat.eqb_neq; lia).
    rewrite IH by (pose proof (lstrip_chars_length aft); lia).
    simpl. by rewrite Hc, squeeze_true.
  - rewrite IH by lia. simpl. by rewrite Hc.
Qed.

Lemma lstrip_chars_snoc a c :
  Str.lstrip_chars (a ++ [c]) =
  match Str.lstrip_chars a with
  | [] => if Str.isspace c then [] else [c]
  | r => r ++ [c]
  end.
Proof.
  induction a as [|x a IH]; simpl; [by destruct (Str.isspace c)|].
  by destruct (Str.isspace x).
Qed.

Lemma rstrip_chars_rev l :
  rev (Str.lstrip_chars (rev l)) = rstrip_chars l.
Proof.
  induction l as [|c l IH]; [done|]. simpl. rewrite lstrip_chars_snoc, <-IH.
  destruct (Str.lstrip_chars (rev l)) as [|x r]; simpl.
  - by destruct (Str.isspace c).
  - rewrite rev_app_distr. simpl. by destruct (rev r ++ [x]) eqn:E;
      [destruct (rev r); discriminate E|].
Qed.

Lemma lstrip_squeeze skip l :
  Str.lstrip_chars (squeeze skip l) =
  match Str.lstrip_chars l with
  | [] => []
  | c :: r => c :: squeeze false r
  end.
Proof.
  revert skip. induction l as [|c l IH]; intros skip; simpl; [done|].
  destruct (Str.isspace c) eqn:Hc.
  - destruct skip; [apply IH|]. simpl. apply IH.
  - simpl. by rewrite Hc.
Qed.

Lemma rstrip_squeeze l :
  rstrip_chars (squeeze false l) = norm_word l ∧
  rstrip_chars (squeeze true l) = norm_start l.
Proof.
  induction l as [|c l [IH1 IH2]]; [done|].
  destruct (Str.isspace c) eqn:Hc.
  - rewrite (norm_word_space c l Hc). simpl. rewrite Hc. simpl.
    rewrite IH2, norm_gap_start. split; [|done]. by destruct (norm_start l).
  - rewrite (norm_word_char c l Hc). simpl. rewrite Hc. simpl.
    rewrite IH1, Hc. by destruct (norm_word l).
Qed.

Lemma norm_start_lstrip l :
  norm_start l = match Str.lstrip_chars l with
                 | [] => []
                 | c :: r => c :: norm_word r
                 end.
Proof.
  induction l as [|c l IH]; simpl; [done|].
  destruct (Str.isspace c) eqn:Hc; [done|].
  change (c :: norm_word l = c :: norm_word l). done.
Qed.

Lemma strip_squeeze l : Str.strip_chars (squeeze false l) = norm_start l.
Proof.
  unfold Str.strip_chars. rewrite rstrip_chars_rev, lstrip_squeeze.
  rewrite norm_start_lstrip.
  destruct (Str.lstrip_chars l) as [|c r] eqn:Hl; [done|].
  apply lstrip_chars_head in Hl. simpl.
  rewrite (proj1 (rstrip_squeeze r)), Hl. by destruct (norm_word r).
Qed.

Lemma split_chars_all_space l :
  Str.split_chars [] l = [] ↔ norm_start l = [].
Proof.
  induction l as [|c l IH]; simpl; [done|].
  destruct (Str.isspace c); [done|]. split; [|done].
  assert (∀ cur l, cur ≠ [] → Str.split_chars cur l ≠ []) as Hne.
  { clear. intros cur l. revert cur. induction l as [|d l IH]; intros cur Hcur; simpl.
    - by destruct cur.
    - destruct (Str.isspace d); [by destruct cur|]. by apply IH. }
  intros H. by apply Hne in H.
Qed.

Lemma join_split_chars l :
  join_chars (Str.split_chars [] l) = norm_start l ∧
  ∀ cur, cur ≠ [] →
     join_chars (Str.split_chars cur l) = rev cur ++ norm_word l.
Proof.
  induction l as [|c l [IH1 IH2]].
  - split; [done|]. intros cur Hcur. simpl. destruct cur; [done|].
    by rewrite app_nil_r.
  - destruct (Str.isspace c) eqn:Hc.
    + split; [simpl; by rewrite Hc|].
      intros cur Hcur. rewrite (norm_word_space c l Hc). simpl. rewrite Hc.
      destruct cur as [|x cur]; [done|].
      rewrite norm_gap_start.
      destruct (Str.split_chars [] l) as [|t ts] eqn:Hsplit.
      * apply split_chars_all_space in Hsplit. rewrite Hsplit. simpl.
        by rewrite app_nil_r.
      * change (join_chars (rev (x :: cur) :: t :: ts))
          with (rev (x :: cur) ++ ascii_of_nat 32 :: join_chars (t :: ts)).
        rewrite IH1. destruct (norm_start l) eqn:Hstart; [|done].
        apply split_chars_all_space in Hstart. congruence.
    + split.
      * simpl. rewrite Hc. rewrite IH2 by done. done.
      * intros cur Hcur. rewrite (norm_word_char c l Hc). simpl. rewrite Hc.
        rewrite IH2 by done. simpl. by rewrite <-app_assoc.
Qed.

(** X22. [_clean] turns an ASCII text into its words joined by single
    spaces: the white space at both ends is gone and every run of white
    space inside is one space; [None] gives "". *)
Theorem clean_joins_words (s : option string) :
  ascii_text (default "" s) = true →
  _clean s = Str.join " " (Str.split (default "" s)).
Proof.
  intros _.
  unfold _clean, Str.strip, Re.sub, Str.split.
  set (l := Str.chars (default "" s)).
  assert (String.length (default "" s) = length l) as ->.
  { unfold l, Str.chars. generalize (default "" s). intros t.
    induction t as [|c t IH]; simpl; [done|]. by rewrite IH. }
  unfold Str.chars at 1, Str.of_chars at 2.
  rewrite list_ascii_of_string_of_list_ascii.
  change (Str.chars " ") with [ascii_of_nat 32].
  rewrite sub_spaces by lia.
  by rewrite strip_squeeze, join_of_chars, (proj1 (join_split_chars l)).
Qed.

Lemma clean_joins_words_witness :
  let raw := "  Nikola	 Jokic
 DEN " in
  ascii_text raw = true ∧
  _clean (Some raw) = "Nikola Jokic DEN" ∧
  Str.join " " (Str.split raw) = "Nikola Jokic DEN".
Proof.
  intros raw.
  assert (ascii_text (default "" (Some raw)) = true) as Hascii by reflexivity.
  pose proof (clean_joins_words (Some raw) Hascii) as Hclean.
  change (default "" (Some raw)) with raw in Hclean.
  split; [exact Hascii|]. split; [vm_compute; reflexivity|].
  rewrite <-Hclean. vm_compute. reflexivity.
Defined.
